(** * watchdog: kqueue emitter and SQLite-backed directory snapshots

    A shallow embedding of [watchdog/utils/dirsnapshot.py] and
    [watchdog/observers/kqueue.py].

    Python objects that are mutated in place and can be reached through
    more than one name are kept in explicit stores: the SQLite database
    files behind the snapshots ([dbstore]) and the list object behind
    [KeventDescriptorSet._kevents] ([pyheap]).  Exceptions are values of
    [exn]; a call returns a [result]. *)

From stdpp Require Import base option list gmap strings.

Open Scope string_scope.
#[local] Set Warnings "-clear-no-such-hyp".

(** ** Exceptions and results *)

(** The exception classes the two modules raise, catch or let through.
    An [OSError] carries its errno; [PermissionError] is the [OSError]
    whose errno is [EACCES] or [EPERM]. *)
Inductive exn :=
  | OSError (errno : Z)
  | KeyError
  | ValueError
  | TypeError
  | AttributeError
  | OverflowError
  | OperationalError
  | ProgrammingError.

Inductive result (A : Type) :=
  | Ok (a : A)
  | Raise (e : exn).
Arguments Ok {A} a.
Arguments Raise {A} e.

Global Instance exn_eq_dec : EqDecision exn.
Proof. solve_decision. Defined.

Global Instance result_ret : MRet result := fun A a => Ok a.
Global Instance result_bind : MBind result := fun A B f r =>
  match r with
  | Ok a => f a
  | Raise e => Raise e
  end.

Global Instance result_fmap : FMap result := fun A B f r =>
  match r with
  | Ok a => Ok (f a)
  | Raise e => Raise e
  end.

(** errno values of [<sys/errno.h>], the same on macOS and the BSDs. *)
Definition EPERM : Z := 1.
Definition ENOENT : Z := 2.
Definition EBADF : Z := 9.
Definition EACCES : Z := 13.
Definition ENOTDIR : Z := 20.
Definition EINVAL : Z := 22.
Definition EMFILE : Z := 24.

Definition is_OSError (e : exn) : bool :=
  match e with OSError _ => true | _ => false end.

Definition is_PermissionError (e : exn) : bool :=
  match e with
  | OSError n => bool_decide (n = EACCES) || bool_decide (n = EPERM)
  | _ => false
  end.

(** ** Values from the interpreter and the operating system *)

(** Python floats, which the code stores, reads back and compares with
    [!=].  Equality of the type is [==] of two floats that are not NaN;
    [is_nan] tells the NaNs, which SQLite stores as NULL. *)
Class PyFloat := {
  pyfloat : Type;
  pyfloat_eq_dec :: EqDecision pyfloat;
  is_nan : pyfloat → bool;
}.

(** [os.stat_result], the fields that are read. *)
Record stat_result `{PyFloat} := {
  st_mode : Z;
  st_ino : Z;
  st_dev : Z;
  st_mtime : pyfloat;
  st_size : Z;
}.


(** [select.kevent]: the fields the constructor call sets. *)
Module kevent.
Record t := {
  ident : Z;
  filter : Z;
  flags : Z;
  fflags : Z;
}.
End kevent.

Global Instance kevent_eq_dec : EqDecision kevent.t.
Proof. solve_decision. Defined.

(** Modelled from the spec: the event classes of [watchdog.events], which
    is not part of the sources at hand.  Section 6 lists the eight
    variants, each carrying its paths. *)
Inductive event :=
  | FileCreatedEvent (src_path : string)
  | DirCreatedEvent (src_path : string)
  | FileDeletedEvent (src_path : string)
  | DirDeletedEvent (src_path : string)
  | FileModifiedEvent (src_path : string)
  | DirModifiedEvent (src_path : string)
  | FileMovedEvent (src_path dest_path : string)
  | DirMovedEvent (src_path dest_path : string).

Global Instance event_eq_dec : EqDecision event.
Proof. solve_decision. Defined.

(** Modelled from the spec: [EVENT_TYPE_CREATED], [EVENT_TYPE_DELETED],
    [EVENT_TYPE_MOVED] and the type of the modified events. *)
Inductive event_kind :=
  | EVENT_TYPE_CREATED
  | EVENT_TYPE_DELETED
  | EVENT_TYPE_MODIFIED
  | EVENT_TYPE_MOVED.

Global Instance event_kind_eq_dec : EqDecision event_kind.
Proof. solve_decision. Defined.

(** Modelled from the spec: the attributes [event_type], [is_directory],
    [src_path] and [dest_path] of an event. *)
Definition event_type (ev : event) : event_kind :=
  match ev with
  | FileCreatedEvent _ | DirCreatedEvent _ => EVENT_TYPE_CREATED
  | FileDeletedEvent _ | DirDeletedEvent _ => EVENT_TYPE_DELETED
  | FileModifiedEvent _ | DirModifiedEvent _ => EVENT_TYPE_MODIFIED
  | FileMovedEvent _ _ | DirMovedEvent _ _ => EVENT_TYPE_MOVED
  end.

Definition event_is_directory (ev : event) : bool :=
  match ev with
  | DirCreatedEvent _ | DirDeletedEvent _ | DirModifiedEvent _
  | DirMovedEvent _ _ => true
  | _ => false
  end.

Definition event_src_path (ev : event) : string :=
  match ev with
  | FileCreatedEvent p | DirCreatedEvent p | FileDeletedEvent p
  | DirDeletedEvent p | FileModifiedEvent p | DirModifiedEvent p
  | FileMovedEvent p _ | DirMovedEvent p _ => p
  end.

Definition event_dest_path (ev : event) : string :=
  match ev with
  | FileMovedEvent _ d | DirMovedEvent _ d => d
  | _ => ""
  end.

(** What the modules take from the standard library and the operating
    system.  [World] is the state of the operating system: the file tree,
    the open descriptors, the kernel queue. *)
Class Platform `{PyFloat} := {
  World : Type;
  (** [absolute_path]: [os.path.abspath(os.path.normpath(path))], which
      leaves its own results as they are. *)
  absolute_path : string → string;
  absolute_path_idemp p : absolute_path (absolute_path p) = absolute_path p;
  os_path_join : string → string → string;
  os_path_dirname : string → string;
  os_stat : World → string → result stat_result;
  os_scandir : World → string → result (list string);
  os_open : World → string → Z → World * result Z;
  os_close : World → Z → World * result unit;
  (** [select.kqueue()], [kq.control(changelist, max_events, timeout)] and
      [kq.close()]. *)
  select_kqueue : World → World * result unit;
  kqueue_control : World → list kevent.t → Z → pyfloat → World * result (list kevent.t);
  kqueue_close : World → World * result unit;
  (** [platform.is_darwin()]. *)
  is_darwin : bool;
  (** The largest value of the C type [mode_t]. *)
  mode_t_max : Z;
  (** The database file that [sqlite3.connect] opens for a name other
      than [":memory:"] and the empty string, two names of one file giving
      one result; [None] when the file cannot be opened. *)
  sqlite3_file : string → option string;
  (** [watchdog.events.generate_sub_moved_events(src, dest)], which is not
      part of the sources at hand; the listing of the moved directory it
      walks is taken as given. *)
  generate_sub_moved_events : string → string → list event;
}.

(** [errno.EOPNOTSUPP]: 102 on macOS, 45 on the BSDs. *)
Definition EOPNOTSUPP `{Platform} : Z := if is_darwin then 102%Z else 45%Z.

(** [stat.S_ISDIR]: [(mode & 0o170000) == 0o040000], after the mode was
    converted to [mode_t], which raises [OverflowError] on a negative
    value and on one that does not fit. *)
Definition S_ISDIR `{Platform} (mode : Z) : result bool :=
  if bool_decide (0 ≤ mode)%Z && bool_decide (mode ≤ mode_t_max)%Z
  then Ok (bool_decide (Z.land mode 61440 = 16384)%Z)
  else Raise OverflowError.

(** ** The snapshot database

    One row of the table [snapshot]; [path] is the primary key, so a table
    is a finite map from paths to rows.  A row has the rowid that SQLite
    gave it, by which a scan of the table goes; [r_mtime] is [None] for
    NULL. *)
Record row `{PyFloat} := {
  r_rowid : Z;
  r_inode : Z;
  r_device : Z;
  r_is_dir : Z;
  r_mtime : option pyfloat;
  r_size : Z;
}.

(** The database files, each under the identity that [sqlite3_file] gives
    its names.  A file without an entry does not exist yet or holds no
    [snapshot] table; [sqlite3.connect] creates the file on demand. *)
Abbreviation table := (gmap string row).
Abbreviation dbstore := (gmap string (gmap string row)).

(** The value passed for [db_path]: the emitter passes a string in no call,
    and a [bool] in one. *)
Inductive db_arg :=
  | DbStr (name : string)
  | DbBool (b : bool).

Global Instance db_arg_eq_dec : EqDecision db_arg.
Proof. solve_decision. Defined.

(** What a connection is connected to: a database file, or a database of
    its own that no other connection sees and that is gone with it. *)
Inductive connection :=
  | File (id : string)
  | Private.

(** [sqlite3.connect(database)] accepts [str], [bytes] or [os.PathLike] and
    raises [TypeError] on anything else.  The names [":memory:"] and [""]
    give each connection a new private database; any other name is the
    name of a file, and [OperationalError] is raised when it cannot be
    opened. *)
Definition sqlite3_connect `{Platform} (d : db_arg) : result connection :=
  match d with
  | DbStr name =>
      if bool_decide (name = ":memory:" ∨ name = "") then Ok Private
      else match sqlite3_file name with
           | Some id => Ok (File id)
           | None => Raise OperationalError
           end
  | DbBool _ => Raise TypeError
  end.

(** The database that a connection works on, as a store of its own with
    the key under which its table is kept, and the store of the database
    files once the connection is done with. *)
Definition connection_store `{Platform} (c : connection) (dbs : dbstore)
    : string * dbstore :=
  match c with
  | File id => (id, dbs)
  | Private => ("", ∅)
  end.

Definition connection_done `{Platform} (c : connection) (dbs conn_dbs : dbstore)
    : dbstore :=
  match c with
  | File _ => conn_dbs
  | Private => dbs
  end.

(** The Python values passed to [DirectorySnapshot.path]. *)
Inductive pyval :=
  | PyNone
  | PyInt (z : Z)
  | PyTuple2 (a b : pyval).

(** SQLite's INTEGER is a signed 64-bit integer; binding a larger Python
    [int] raises [OverflowError]. *)
Definition fits_sqlite_int (z : Z) : bool :=
  bool_decide (-9223372036854775808 ≤ z)%Z && bool_decide (z ≤ 9223372036854775807)%Z.

(** How a generator that is run to its end together with its consumer
    ends: exhausted, by an exception raised in the generator, or by an
    exception raised in the consumer. *)
Inductive gen_end :=
  | GenDone
  | GenRaise (e : exn)
  | ConsumerRaise (e : exn).

Module DirectorySnapshot.
Section snapshot.
Context `{Platform}.

(** The attributes a snapshot keeps and reads after construction.  The
    hooks [self.stat] and [self.listdir] are only read by [walk], during
    construction, and are passed to it directly. *)
Record t := {
  recursive : bool;
  db_path : string;
}.

(** [CREATE TABLE IF NOT EXISTS snapshot (...)], in the database kept
    under [id]. *)
Definition create_table (id : string) (dbs : dbstore) : dbstore :=
  match dbs !! id with
  | Some _ => dbs
  | None => <[id := ∅]> dbs
  end.

(** The rowid that SQLite gives a new row: one more than the largest of
    the table, the row about to be replaced included. *)
Definition next_rowid (tbl : gmap string row) : Z :=
  (1 + map_fold (λ _ r acc, Z.max (r_rowid r) acc) 0 tbl)%Z.

(** The row that [add_entry_to_db] binds: a NaN is stored as NULL. *)
Definition stat_row (rowid : Z) (is_dir : bool) (st : stat_result) : row :=
  {| r_rowid := rowid;
     r_inode := st_ino st;
     r_device := st_dev st;
     r_is_dir := Z.b2z is_dir;
     r_mtime := if is_nan (st_mtime st) then None else Some (st_mtime st);
     r_size := st_size st |}.

(** [add_entry_to_db], on the database that the connection keeps under
    [id]: the tuple of values is built, which evaluates [S_ISDIR]; then
    [INSERT OR REPLACE] of the row, and commit. *)
Definition add_entry_to_db (id : string) (path : string) (st : stat_result)
    (dbs : dbstore) : dbstore * result unit :=
  match S_ISDIR (st_mode st) with
  | Raise e => (dbs, Raise e)
  | Ok is_dir =>
      match dbs !! id with
      | None => (dbs, Raise OperationalError)
      | Some tbl =>
          if fits_sqlite_int (st_ino st) && fits_sqlite_int (st_dev st)
             && fits_sqlite_int (st_size st)
          then (<[id := <[path := stat_row (next_rowid tbl) is_dir st]> tbl]> dbs, Ok ())
          else (dbs, Raise OverflowError)
      end
  end.

(** A query connects to the database that [self.db_path] names; [SELECT]
    on a database without the table, as a private database always is,
    raises [OperationalError]. *)
Definition select_table (self : t) (dbs : dbstore) : result (gmap string row) :=
  match sqlite3_connect (DbStr (db_path self)) with
  | Raise e => Raise e
  | Ok Private => Raise OperationalError
  | Ok (File id) =>
      match dbs !! id with
      | Some tbl => Ok tbl
      | None => Raise OperationalError
      end
  end.

Definition paths (self : t) (dbs : dbstore) : result (gset string) :=
  tbl ← select_table self dbs; Ok (dom tbl).

(** [inode(path)]: the row [(inode, device)], or [(None, None)]. *)
Definition inode (self : t) (dbs : dbstore) (path : string)
    : result (option Z * option Z) :=
  tbl ← select_table self dbs;
  Ok (match tbl !! path with
      | Some r => (Some (r_inode r), Some (r_device r))
      | None => (None, None)
      end).

Definition isdir (self : t) (dbs : dbstore) (path : string) : result bool :=
  tbl ← select_table self dbs;
  Ok (match tbl !! path with
      | Some r => negb (bool_decide (r_is_dir r = 0%Z))
      | None => false
      end).

Definition mtime (self : t) (dbs : dbstore) (path : string)
    : result (option pyfloat) :=
  tbl ← select_table self dbs; Ok (tbl !! path ≫= r_mtime).

Definition size (self : t) (dbs : dbstore) (path : string) : result (option Z) :=
  tbl ← select_table self dbs; Ok (r_size <$> tbl !! path).

(** The row of least rowid. *)
Definition first_by_rowid (rows : list (string * row)) : option (string * row) :=
  foldr (λ kv best,
           match best with
           | Some b => if bool_decide (r_rowid kv.2 ≤ r_rowid b.2)%Z
                       then Some kv else Some b
           | None => Some kv
           end) None rows.

(** [path(inode, device)]: [fetchone()] over the rows with that inode
    and device, which SQLite scans by rowid.  A comparison with NULL
    selects nothing; a tuple is no SQL value. *)
Definition path (self : t) (dbs : dbstore) (inode device : pyval)
    : result (option string) :=
  tbl ← select_table self dbs;
  match inode, device with
  | PyTuple2 _ _, _ | _, PyTuple2 _ _ => Raise ProgrammingError
  | PyInt i, PyInt d =>
      Ok (fst <$> first_by_rowid
                    (filter (λ kv, r_inode kv.2 = i ∧ r_device kv.2 = d)
                            (map_to_list tbl)))
  | _, _ => Ok None
  end.

(** A hook is a Python callable run by the constructor; it acts on the
    state [S] of whoever supplied it. *)
Definition hook (S A : Type) := S → string → S * result A.

Section walk.
Context {T : Type}.
Variable self_stat : hook T stat_result.
Variable self_listdir : hook T (list string).
Variable self_recursive : bool.
(** The body of the [for] loop that consumes the generator; it runs
    between two resumptions of [walk]. *)
Variable consume : string * stat_result → T → T * result unit.

(** The first loop of [walk]: stat each path, keep and yield the
    entries whose stat succeeds; an [OSError] skips the path, any
    other exception ends the generator.  An exception of the consumer
    is raised in the consumer's frame: the generator is not resumed. *)
Fixpoint walk_entries (paths : list string) (s : T)
    : T * (list (string * stat_result) * gen_end) :=
  match paths with
  | [] => (s, ([], GenDone))
  | p :: ps =>
      match self_stat s p with
      | (s1, Ok st) =>
          match consume (p, st) s1 with
          | (s2, Ok _) =>
              let '(s3, (entries, fin)) := walk_entries ps s2 in
              (s3, ((p, st) :: entries, fin))
          | (s2, Raise e) => (s2, ([(p, st)], ConsumerRaise e))
          end
      | (s1, Raise e) =>
          if is_OSError e then walk_entries ps s1
          else (s1, ([], GenRaise e))
      end
  end.

(** The second loop of [walk], over the entries kept by the first;
    [walk_rec] is [self.walk].  A [PermissionError] of the walk of a
    sub-directory is passed over. *)
Fixpoint walk_subdirs (walk_rec : string → T → option (T * gen_end))
    (entries : list (string * stat_result)) (s : T) : option (T * gen_end) :=
  match entries with
  | [] => Some (s, GenDone)
  | (path, st) :: rest =>
      match S_ISDIR (st_mode st) with
      | Raise e =>
          if is_PermissionError e then walk_subdirs walk_rec rest s
          else Some (s, GenRaise e)
      | Ok true =>
          match walk_rec path s with
          | None => None
          | Some (s1, GenDone) => walk_subdirs walk_rec rest s1
          | Some (s1, GenRaise e) =>
              if is_PermissionError e then walk_subdirs walk_rec rest s1
              else Some (s1, GenRaise e)
          | Some (s1, ConsumerRaise e) => Some (s1, ConsumerRaise e)
          end
      | Ok false => walk_subdirs walk_rec rest s
      end
  end.

(** [walk(root)], run to its end together with its consumer.  The
    recursion follows the directory tree, whose depth [fuel] bounds;
    [None] is a tree deeper than [fuel]. *)
Fixpoint walk (fuel : nat) (root : string) (s : T) : option (T * gen_end) :=
  match fuel with
  | O => None
  | S fuel' =>
      match self_listdir s root with
      | (s1, Raise e) =>
          if bool_decide (e ∈ [OSError ENOENT; OSError ENOTDIR; OSError EINVAL])
          then Some (s1, GenDone)
          else Some (s1, GenRaise e)
      | (s1, Ok names) =>
          match walk_entries (os_path_join root <$> names) s1 with
          | (s2, (entries, GenDone)) =>
              if self_recursive
              then walk_subdirs (walk fuel') entries s2
              else Some (s2, GenDone)
          | (s2, (_, fin)) => Some (s2, fin)
          end
      end
  end.
End walk.

Section construction.
Context {S : Type}.

(** A hook of the caller, run on the caller's state next to the
    database files. *)
Definition lift_hook {A} (h : hook S A) : hook (S * dbstore) A :=
  λ '(s, dbs) p, let '(s', r) := h s p in ((s', dbs), r).

Definition consume_entry (id : string) (entry : string * stat_result)
    : S * dbstore → (S * dbstore) * result unit :=
  λ '(s, dbs), let '(dbs', r) := add_entry_to_db id entry.1 entry.2 dbs in
               ((s, dbs'), r).

(** The string that was passed for [db_path]. *)
Definition db_name (db : db_arg) : string :=
  match db with
  | DbStr name => name
  | DbBool _ => ""
  end.

(** What [__init__] does once it is connected, on the database that the
    connection keeps under [id]. *)
Definition init_run (id : string) (path : string) (self_recursive : bool)
    (self_stat : hook S stat_result) (self_listdir : hook S (list string))
    (fuel : nat) (s : S) (dbs : dbstore) : option (S * dbstore * result unit) :=
  let dbs1 := create_table id dbs in
  match self_stat s path with
  | (s1, Raise e) => Some (s1, dbs1, Raise e)
  | (s1, Ok st) =>
      match add_entry_to_db id path st dbs1 with
      | (dbs2, Raise e) => Some (s1, dbs2, Raise e)
      | (dbs2, Ok _) =>
          match walk (lift_hook self_stat) (lift_hook self_listdir)
                     self_recursive (consume_entry id) fuel path (s1, dbs2) with
          | None => None
          | Some ((s2, dbs3), GenDone) => Some (s2, dbs3, Ok ())
          | Some ((s2, dbs3), GenRaise e)
          | Some ((s2, dbs3), ConsumerRaise e) => Some (s2, dbs3, Raise e)
          end
      end
  end.

(** [__init__], the parameters bound. *)
Definition init (path : string) (db : db_arg) (self_recursive : bool)
    (self_stat : hook S stat_result) (self_listdir : hook S (list string))
    (fuel : nat) (s : S) (dbs : dbstore) : option (S * dbstore * result t) :=
  match sqlite3_connect db with
  | Raise e => Some (s, dbs, Raise e)
  | Ok conn =>
      let '(id, conn_dbs) := connection_store conn dbs in
      match init_run id path self_recursive self_stat self_listdir fuel s conn_dbs with
      | None => None
      | Some (s', conn_dbs', r) =>
          Some (s', connection_done conn dbs conn_dbs',
                r ≫= λ _, Ok {| recursive := self_recursive; db_path := db_name db |})
      end
  end.

(** [os.stat] and [os.scandir], the defaults of [stat] and
    [listdir], for a caller whose state holds the operating system. *)
Definition os_stat_default (get : S → World) : hook S stat_result :=
  λ s path, (s, os_stat (get s) path).
Definition os_scandir_default (get : S → World) : hook S (list string) :=
  λ s path, (s, os_scandir (get s) path).

(** The arguments of a call [DirectorySnapshot(...)], each under the
    parameter that Python binds it to; [None] is a parameter the call
    does not supply. *)
Record call_args := {
  a_path : string;
  a_db_path : option db_arg;
  a_recursive : option bool;
  a_stat : option (hook S stat_result);
  a_listdir : option (hook S (list string));
}.

(** A call: [db_path] has no default, so a call without it raises
    [TypeError]; the other parameters fall back on [True], [os.stat]
    and [os.scandir]. *)
Definition call (os_stat_hook : hook S stat_result)
    (os_scandir_hook : hook S (list string)) (args : call_args)
    (fuel : nat) (s : S) (dbs : dbstore) : option (S * dbstore * result t) :=
  match a_db_path args with
  | None => Some (s, dbs, Raise TypeError)
  | Some db =>
      init (a_path args) db (default true (a_recursive args))
           (default os_stat_hook (a_stat args))
           (default os_scandir_hook (a_listdir args)) fuel s dbs
  end.
End construction.
End snapshot.
End DirectorySnapshot.

(** ** DirectorySnapshotDiff *)

(** [for x in xs: acc = body(acc, x)], where the body may raise. *)
Fixpoint for_each {A B : Type} (body : B → A → result B) (xs : list A) (acc : B)
    : result B :=
  match xs with
  | [] => Ok acc
  | x :: xs' => acc' ← body acc x; for_each body xs' acc'
  end.

Module DirectorySnapshotDiff.
Section diff.
Context `{Platform}.

Record t := {
  previous_dirsnap : DirectorySnapshot.t;
  current_dirsnap : DirectorySnapshot.t;
  added : gset string;
  removed : gset string;
  modified : gset string;
}.

(** The body of the loop of [compute_diff]. *)
Definition compute_diff_step (previous current : DirectorySnapshot.t)
    (dbs : dbstore) (modified : gset string) (path : string)
    : result (gset string) :=
  '(prev_inode, prev_device) ← DirectorySnapshot.inode previous dbs path;
  '(cur_inode, cur_device) ← DirectorySnapshot.inode current dbs path;
  if bool_decide (prev_inode ≠ cur_inode) || bool_decide (prev_device ≠ cur_device)
  then Ok ({[path]} ∪ modified)
  else
    prev_mtime ← DirectorySnapshot.mtime previous dbs path;
    cur_mtime ← DirectorySnapshot.mtime current dbs path;
    if bool_decide (prev_mtime ≠ cur_mtime)
    then Ok ({[path]} ∪ modified)
    else Ok modified.

Definition compute_diff (previous current : DirectorySnapshot.t) (dbs : dbstore)
    : result (gset string * gset string * gset string) :=
  previous_paths ← DirectorySnapshot.paths previous dbs;
  current_paths ← DirectorySnapshot.paths current dbs;
  let added := current_paths ∖ previous_paths in
  let removed := previous_paths ∖ current_paths in
  modified ← for_each (compute_diff_step previous current dbs)
                      (elements (previous_paths ∩ current_paths)) ∅;
  Ok (added, removed, modified).

(** [__init__]. *)
Definition new (previous current : DirectorySnapshot.t) (dbs : dbstore)
    : result t :=
  '(a, r, m) ← compute_diff previous current dbs;
  Ok {| previous_dirsnap := previous; current_dirsnap := current;
        added := a; removed := r; modified := m |}.

(** [__getitem__]. *)
Definition getitem (self : t) (item : string) : result (gset string) :=
  if bool_decide (item = "added") then Ok (added self)
  else if bool_decide (item = "removed") then Ok (removed self)
  else if bool_decide (item = "modified") then Ok (modified self)
  else Raise KeyError.

(** What an attribute of a diff object can be. *)
Inductive attr :=
  | AttrSnapshot (s : DirectorySnapshot.t)
  | AttrPaths (ps : gset string)
  | AttrMethod (name : string).

(** The methods the class defines. *)
Definition methods : list string :=
  ["__init__"; "compute_diff"; "__repr__"; "__str__"; "__getitem__"; "__iter__"].

(** Attribute access [self.name]: the instance attributes that
    [__init__] sets, then the methods of the class; the class has no
    [__getattr__], so any other name raises [AttributeError]. *)
Definition getattr (self : t) (name : string) : result attr :=
  if bool_decide (name = "previous_dirsnap") then Ok (AttrSnapshot (previous_dirsnap self))
  else if bool_decide (name = "current_dirsnap") then Ok (AttrSnapshot (current_dirsnap self))
  else if bool_decide (name = "added") then Ok (AttrPaths (added self))
  else if bool_decide (name = "removed") then Ok (AttrPaths (removed self))
  else if bool_decide (name = "modified") then Ok (AttrPaths (modified self))
  else if bool_decide (name ∈ methods) then Ok (AttrMethod name)
  else Raise AttributeError.

(** [for x in value]: a set is iterated in some order; a snapshot or a
    bound method is not iterable. *)
Definition iterate (v : attr) : result (list string) :=
  match v with
  | AttrPaths ps => Ok (elements ps)
  | _ => Raise TypeError
  end.
End diff.
End DirectorySnapshotDiff.

(** [DirectorySnapshot.__sub__]: [self - previous_dirsnap]. *)
Definition DirectorySnapshot_sub `{Platform} (self previous_dirsnap : DirectorySnapshot.t)
    (dbs : dbstore) : result DirectorySnapshotDiff.t :=
  DirectorySnapshotDiff.new previous_dirsnap self dbs.

(** ** kqueue constants

    The values of [select.KQ_*] and of the open flags on BSD and macOS. *)
Definition MAX_EVENTS : Z := 4096.
Definition O_EVTONLY : Z := 32768.
Definition O_RDONLY : Z := 0.
Definition O_NONBLOCK : Z := 4.
Definition KQ_FILTER_VNODE : Z := -4.
Definition KQ_EV_ADD : Z := 1.
Definition KQ_EV_ENABLE : Z := 4.
Definition KQ_EV_CLEAR : Z := 32.
Definition KQ_NOTE_DELETE : Z := 1.
Definition KQ_NOTE_WRITE : Z := 2.
Definition KQ_NOTE_EXTEND : Z := 4.
Definition KQ_NOTE_ATTRIB : Z := 8.
Definition KQ_NOTE_LINK : Z := 16.
Definition KQ_NOTE_RENAME : Z := 32.
Definition KQ_NOTE_REVOKE : Z := 64.

Definition WATCHDOG_OS_OPEN_FLAGS `{Platform} : Z :=
  if is_darwin then O_EVTONLY else Z.lor O_RDONLY O_NONBLOCK.
Definition WATCHDOG_KQ_FILTER : Z := KQ_FILTER_VNODE.
Definition WATCHDOG_KQ_EV_FLAGS : Z :=
  Z.lor (Z.lor KQ_EV_ADD KQ_EV_ENABLE) KQ_EV_CLEAR.
Definition WATCHDOG_KQ_FFLAGS : Z :=
  Z.lor (Z.lor (Z.lor (Z.lor (Z.lor (Z.lor
    KQ_NOTE_DELETE KQ_NOTE_WRITE) KQ_NOTE_EXTEND) KQ_NOTE_ATTRIB)
    KQ_NOTE_LINK) KQ_NOTE_RENAME) KQ_NOTE_REVOKE.

(** Python truth of an [int]. *)
Definition truthy (z : Z) : bool := negb (bool_decide (z = 0%Z)).

(** Flag tests. *)
Definition is_deleted (kev : kevent.t) : bool :=
  truthy (Z.land (kevent.fflags kev) KQ_NOTE_DELETE).

Definition is_modified (kev : kevent.t) : bool :=
  let fflags := kevent.fflags kev in
  truthy (Z.land fflags KQ_NOTE_EXTEND) || truthy (Z.land fflags KQ_NOTE_WRITE).

Definition is_attrib_modified (kev : kevent.t) : bool :=
  truthy (Z.land (kevent.fflags kev) KQ_NOTE_ATTRIB).

Definition is_renamed (kev : kevent.t) : bool :=
  truthy (Z.land (kevent.fflags kev) KQ_NOTE_RENAME).

(** ** Python list objects

    [KeventDescriptorSet._kevents] is a list object that the [kevents]
    property hands out; the heap maps a reference to the current contents
    of the object it names. *)
Abbreviation pyheap := (gmap positive (list kevent.t)).

(** [list()] or [[]]: a new, empty list object. *)
Definition new_list (h : pyheap) : positive * pyheap :=
  let l := fresh (dom h) in (l, <[l := []]> h).

(** [lst.remove(x)]: drop the first item equal to [x]; [None] when there
    is none ([ValueError]). *)
Fixpoint remove_first {A} `{EqDecision A} (x : A) (l : list A) : option (list A) :=
  match l with
  | [] => None
  | y :: l' => if decide (x = y) then Some l' else (y ::.) <$> remove_first x l'
  end.

(** ** KeventDescriptor *)
Module KeventDescriptor.
Section descriptor.
Context `{Platform}.

Record t := {
  path : string;
  is_directory : bool;
  fd : Z;
  kevent : kevent.t;
}.

(** [__init__]: the normalised path, the descriptor from [os.open], the
    kevent that names it. *)
Definition new (path_arg : string) (is_dir : bool) (w : World) : World * result t :=
  let _path := absolute_path path_arg in
  match os_open w path_arg WATCHDOG_OS_OPEN_FLAGS with
  | (w', Raise e) => (w', Raise e)
  | (w', Ok _fd) =>
      (w', Ok {| path := _path; is_directory := is_dir; fd := _fd;
                 kevent := {| kevent.ident := _fd;
                              kevent.filter := WATCHDOG_KQ_FILTER;
                              kevent.flags := WATCHDOG_KQ_EV_FLAGS;
                              kevent.fflags := WATCHDOG_KQ_FFLAGS |} |})
  end.

(** [close]: [os.close(self.fd)], an [OSError] passed over. *)
Definition close (self : t) (w : World) : World * result unit :=
  match os_close w (fd self) with
  | (w', Raise e) => if is_OSError e then (w', Ok ()) else (w', Raise e)
  | (w', Ok _) => (w', Ok ())
  end.

(** Equality and hash are those of [key]. *)
Definition key (self : t) : string * bool := (path self, is_directory self).
End descriptor.
End KeventDescriptor.

(** The part of the process state that lives outside the objects modelled
    by value: the operating system and the heap of list objects. *)
Record sys `{Platform} := {
  world : World;
  heap : pyheap;
}.

(** ** KeventDescriptorSet *)
Module KeventDescriptorSet.
Section descriptor_set.
Context `{Platform}.

(** The set of descriptors is keyed by [KeventDescriptor.key], the
    value [__eq__] and [__hash__] go by; [_kevents] is a reference to a
    list object. *)
Record t := {
  _descriptors : gmap (string * bool) KeventDescriptor.t;
  _descriptor_for_path : gmap string KeventDescriptor.t;
  _descriptor_for_fd : gmap Z KeventDescriptor.t;
  _kevents : positive;
}.

(** [__init__]. *)
Definition new (σ : sys) : t * sys :=
  let '(l, h) := new_list (heap σ) in
  ({| _descriptors := ∅; _descriptor_for_path := ∅;
      _descriptor_for_fd := ∅; _kevents := l |},
   {| world := world σ; heap := h |}).

(** The property [kevents]: [return self._kevents], the list object
    itself. *)
Definition kevents (self : t) : positive := _kevents self.

(** The property [paths]: a new list of the keys. *)
Definition paths (self : t) : list string :=
  (map_to_list (_descriptor_for_path self)).*1.

Definition get_for_fd (self : t) (fd : Z) : result KeventDescriptor.t :=
  match _descriptor_for_fd self !! fd with
  | Some d => Ok d
  | None => Raise KeyError
  end.

Definition _get (self : t) (path : string) : result KeventDescriptor.t :=
  match _descriptor_for_path self !! path with
  | Some d => Ok d
  | None => Raise KeyError
  end.

Definition _has_path (self : t) (path : string) : bool :=
  bool_decide (is_Some (_descriptor_for_path self !! path)).

Definition get (self : t) (path : string) : result KeventDescriptor.t :=
  _get self (absolute_path path).

Definition contains (self : t) (path : string) : bool :=
  _has_path self (absolute_path path).

(** [set.add]: an element equal to one of the set is not added. *)
Definition set_add (d : KeventDescriptor.t)
    (ds : gmap (string * bool) KeventDescriptor.t)
    : gmap (string * bool) KeventDescriptor.t :=
  match ds !! KeventDescriptor.key d with
  | Some _ => ds
  | None => <[KeventDescriptor.key d := d]> ds
  end.

(** [self._kevents.append(descriptor.kevent)] changes the list object
    in place. *)
Definition _add_descriptor (self : t) (descriptor : KeventDescriptor.t)
    (σ : sys) : t * sys :=
  ({| _descriptors := set_add descriptor (_descriptors self);
      _descriptor_for_path :=
        <[KeventDescriptor.path descriptor := descriptor]> (_descriptor_for_path self);
      _descriptor_for_fd :=
        <[KeventDescriptor.fd descriptor := descriptor]> (_descriptor_for_fd self);
      _kevents := _kevents self |},
   {| world := world σ;
      heap := alter (λ l, (l ++ [KeventDescriptor.kevent descriptor])%list)
                    (_kevents self) (heap σ) |}).

Definition add (self : t) (path : string) (is_directory : bool) (σ : sys)
    : (t * sys) * result unit :=
  let path := absolute_path path in
  if _has_path self path then ((self, σ), Ok ())
  else
    match KeventDescriptor.new path is_directory (world σ) with
    | (w, Raise e) => ((self, {| world := w; heap := heap σ |}), Raise e)
    | (w, Ok d) =>
        (_add_descriptor self d {| world := w; heap := heap σ |}, Ok ())
    end.

(** [_remove_descriptor], statement by statement: each of the four
    removals raises when its item is missing, and what the statements
    before it did stays done. *)
Definition _remove_descriptor (self : t) (descriptor : KeventDescriptor.t)
    (σ : sys) : (t * sys) * result unit :=
  match _descriptors self !! KeventDescriptor.key descriptor with
  | None => ((self, σ), Raise KeyError)
  | Some _ =>
    let self1 :=
      {| _descriptors := delete (KeventDescriptor.key descriptor) (_descriptors self);
         _descriptor_for_path := _descriptor_for_path self;
         _descriptor_for_fd := _descriptor_for_fd self;
         _kevents := _kevents self |} in
    match _descriptor_for_fd self1 !! KeventDescriptor.fd descriptor with
    | None => ((self1, σ), Raise KeyError)
    | Some _ =>
      let self2 :=
        {| _descriptors := _descriptors self1;
           _descriptor_for_path := _descriptor_for_path self1;
           _descriptor_for_fd :=
             delete (KeventDescriptor.fd descriptor) (_descriptor_for_fd self1);
           _kevents := _kevents self1 |} in
      match _descriptor_for_path self2 !! KeventDescriptor.path descriptor with
      | None => ((self2, σ), Raise KeyError)
      | Some _ =>
        let self3 :=
          {| _descriptors := _descriptors self2;
             _descriptor_for_path :=
               delete (KeventDescriptor.path descriptor) (_descriptor_for_path self2);
             _descriptor_for_fd := _descriptor_for_fd self2;
             _kevents := _kevents self2 |} in
        match remove_first (KeventDescriptor.kevent descriptor)
                           (default [] (heap σ !! _kevents self3)) with
        | None => ((self3, σ), Raise ValueError)
        | Some l =>
          let h := <[_kevents self3 := l]> (heap σ) in
          let '(w, r) := KeventDescriptor.close descriptor (world σ) in
          ((self3, {| world := w; heap := h |}), r)
        end
      end
    end
  end.

Definition remove (self : t) (path : string) (σ : sys) : (t * sys) * result unit :=
  let path := absolute_path path in
  if _has_path self path then
    match _get self path with
    | Ok d => _remove_descriptor self d σ
    | Raise e => ((self, σ), Raise e)
    end
  else ((self, σ), Ok ()).

(** The loop of [clear]: close every descriptor. *)
Fixpoint close_all (ds : list KeventDescriptor.t) (w : World) : World * result unit :=
  match ds with
  | [] => (w, Ok ())
  | d :: ds' =>
      match KeventDescriptor.close d w with
      | (w', Ok _) => close_all ds' w'
      | (w', Raise e) => (w', Raise e)
      end
  end.

(** [clear]: the three containers are emptied in place; [self._kevents]
    is bound to a new list object. *)
Definition clear (self : t) (σ : sys) : (t * sys) * result unit :=
  match close_all (map_to_list (_descriptors self)).*2 (world σ) with
  | (w, Raise e) => ((self, {| world := w; heap := heap σ |}), Raise e)
  | (w, Ok _) =>
      let '(l, h) := new_list (heap σ) in
      (({| _descriptors := ∅; _descriptor_for_path := ∅;
           _descriptor_for_fd := ∅; _kevents := l |},
        {| world := w; heap := h |}), Ok ())
  end.
End descriptor_set.
End KeventDescriptorSet.

(** ** KqueueEmitter *)
Module KqueueEmitter.
Section emitter.
Context `{Platform}.

(** The attributes of an emitter: the watch and the event queue of the
    base class, the descriptor set and the saved snapshot.  [_snapshot]
    is [None] until [__init__] has assigned it.  The kernel queue
    [self._kq] is part of the [World]. *)
Record t := {
  watch_path : string;
  watch_is_recursive : bool;
  event_queue : list event;
  _descriptors : KeventDescriptorSet.t;
  _snapshot : option DirectorySnapshot.t;
}.

(** An emitter method runs on the emitter and on the process state. *)
Definition state : Type := t * sys.

Definition set_descriptors (em : t) (ds : KeventDescriptorSet.t) : t :=
  {| watch_path := watch_path em; watch_is_recursive := watch_is_recursive em;
     event_queue := event_queue em; _descriptors := ds;
     _snapshot := _snapshot em |}.

Definition set_snapshot (em : t) (snap : DirectorySnapshot.t) : t :=
  {| watch_path := watch_path em; watch_is_recursive := watch_is_recursive em;
     event_queue := event_queue em; _descriptors := _descriptors em;
     _snapshot := Some snap |}.

(** [_register_kevent]: [ENOENT] and [EOPNOTSUPP] of the open are passed
    over, every other exception goes on to the caller. *)
Definition _register_kevent (path : string) (is_directory : bool) (s : state)
    : state * result unit :=
  let '(em, σ) := s in
  match KeventDescriptorSet.add (_descriptors em) path is_directory σ with
  | ((ds, σ'), Ok _) => ((set_descriptors em ds, σ'), Ok ())
  | ((ds, σ'), Raise e) =>
      let s' := (set_descriptors em ds, σ') in
      match e with
      | OSError errno =>
          if bool_decide (errno = ENOENT) then (s', Ok ())
          else if bool_decide (errno = EOPNOTSUPP) then (s', Ok ())
          else (s', Raise e)
      | _ => (s', Raise e)
      end
  end.

Definition _unregister_kevent (path : string) (s : state) : state * result unit :=
  let '(em, σ) := s in
  match KeventDescriptorSet.remove (_descriptors em) path σ with
  | ((ds, σ'), r) => ((set_descriptors em ds, σ'), r)
  end.

(** Modelled from the spec: [EventEmitter.queue_event] of
    [watchdog.observers.api], which is not part of the sources at hand,
    pushes the event to the consumer queue. *)
Definition EventEmitter_queue_event (event : event) (s : state) : state :=
  let '(em, σ) := s in
  ({| watch_path := watch_path em; watch_is_recursive := watch_is_recursive em;
      event_queue := (event_queue em ++ [event])%list;
      _descriptors := _descriptors em; _snapshot := _snapshot em |}, σ).

(** [queue_event]: queue the event, then keep the descriptors in step. *)
Definition queue_event (event : event) (s : state) : state * result unit :=
  let s1 := EventEmitter_queue_event event s in
  if bool_decide (event_type event = EVENT_TYPE_CREATED) then
    _register_kevent (event_src_path event) (event_is_directory event) s1
  else if bool_decide (event_type event = EVENT_TYPE_MOVED) then
    match _unregister_kevent (event_src_path event) s1 with
    | (s2, Ok _) =>
        _register_kevent (event_dest_path event) (event_is_directory event) s2
    | (s2, Raise e) => (s2, Raise e)
    end
  else if bool_decide (event_type event = EVENT_TYPE_DELETED) then
    _unregister_kevent (event_src_path event) s1
  else (s1, Ok ()).

(** The stat hooks: [os.stat] and [os.scandir], the defaults of
    [DirectorySnapshot], and [custom_stat] of [__init__], which wraps
    the emitter's [stat] and registers a kevent for the path. *)
Definition os_stat_hook : DirectorySnapshot.hook state stat_result :=
  DirectorySnapshot.os_stat_default (λ s, world s.2).

Definition os_scandir_hook : DirectorySnapshot.hook state (list string) :=
  DirectorySnapshot.os_scandir_default (λ s, world s.2).

Definition custom_stat (stat : DirectorySnapshot.hook state stat_result)
    : DirectorySnapshot.hook state stat_result :=
  λ s path,
    match stat s path with
    | (s1, Raise e) => (s1, Raise e)
    | (s1, Ok stat_info) =>
        match S_ISDIR (st_mode stat_info) with
        | Raise e => (s1, Raise e)
        | Ok is_dir =>
            match _register_kevent path is_dir s1 with
            | (s2, Raise e) => (s2, Raise e)
            | (s2, Ok _) => (s2, Ok stat_info)
            end
        end
    end.

(** The call [DirectorySnapshot(watch.path, recursive=watch.is_recursive,
    stat=custom_stat)] of [__init__]: no argument for [db_path]. *)
Definition init_snapshot_args (em : t)
    (stat : DirectorySnapshot.hook state stat_result)
    : DirectorySnapshot.call_args :=
  {| DirectorySnapshot.a_path := watch_path em;
     DirectorySnapshot.a_db_path := None;
     DirectorySnapshot.a_recursive := Some (watch_is_recursive em);
     DirectorySnapshot.a_stat := Some (custom_stat stat);
     DirectorySnapshot.a_listdir := None |}.

(** The call [DirectorySnapshot(self.watch.path, self.watch.is_recursive)]
    of [queue_events]: the second positional argument is bound to
    [db_path]; [recursive], [stat] and [listdir] are not supplied. *)
Definition cycle_snapshot_args (em : t)
    : DirectorySnapshot.call_args (S := state) :=
  {| DirectorySnapshot.a_path := watch_path em;
     DirectorySnapshot.a_db_path := Some (DbBool (watch_is_recursive em));
     DirectorySnapshot.a_recursive := None;
     DirectorySnapshot.a_stat := None;
     DirectorySnapshot.a_listdir := None |}.

(** [__init__]; [stat] is [None] when the caller leaves the default
    [os.stat]. *)
Definition new (queue : list event) (path : string) (is_recursive : bool)
    (stat : option (DirectorySnapshot.hook state stat_result))
    (fuel : nat) (σ : sys) (dbs : dbstore) : option (sys * dbstore * result t) :=
  match select_kqueue (world σ) with
  | (w, Raise e) => Some ({| world := w; heap := heap σ |}, dbs, Raise e)
  | (w, Ok _) =>
      let '(ds, σ1) := KeventDescriptorSet.new {| world := w; heap := heap σ |} in
      let em := {| watch_path := path; watch_is_recursive := is_recursive;
                   event_queue := queue; _descriptors := ds;
                   _snapshot := None |} in
      match DirectorySnapshot.call os_stat_hook os_scandir_hook
              (init_snapshot_args em (default os_stat_hook stat))
              fuel (em, σ1) dbs with
      | None => None
      | Some ((em', σ2), dbs', Raise e) => Some (σ2, dbs', Raise e)
      | Some ((em', σ2), dbs', Ok snap) => Some (σ2, dbs', Ok (set_snapshot em' snap))
      end
  end.

Definition _parent_dir_modified (src_path : string) : event :=
  DirModifiedEvent (os_path_dirname src_path).

Definition pyval_of (o : option Z) : pyval :=
  match o with Some z => PyInt z | None => PyNone end.

(** A call of a method with the two parameters
    [(inode, device)] after [self]: any other number of positional
    arguments raises [TypeError] before the body runs. *)
Definition call_method2 {A} (f : pyval → pyval → result A) (args : list pyval)
    : result A :=
  match args with
  | [a; b] => f a b
  | _ => Raise TypeError
  end.

(** A generator run to its end: the events it yields, and the
    exception that ends it, if any. *)
Definition generated : Type := list event * option exn.

(** [_gen_renamed_events]. *)
Definition _gen_renamed_events (em : t) (src_path : string) (is_directory : bool)
    (ref_snapshot new_snapshot : DirectorySnapshot.t) (dbs : dbstore) : generated :=
  match DirectorySnapshot.inode ref_snapshot dbs src_path with
  | Raise KeyError =>
      if is_directory
      then ([DirCreatedEvent src_path; DirDeletedEvent src_path], None)
      else ([FileCreatedEvent src_path; FileDeletedEvent src_path], None)
  | Raise e => ([], Some e)
  | Ok (i, d) =>
      let f_inode := PyTuple2 (pyval_of i) (pyval_of d) in
      match call_method2 (DirectorySnapshot.path new_snapshot dbs) [f_inode] with
      | Raise e => ([], Some e)
      | Ok (Some dest_path) =>
          let dest_path := absolute_path dest_path in
          ((if is_directory then [DirMovedEvent src_path dest_path]
            else [FileMovedEvent src_path dest_path])
           ++ [_parent_dir_modified src_path; _parent_dir_modified dest_path]
           ++ (if is_directory && watch_is_recursive em
               then generate_sub_moved_events src_path dest_path else []),
           None)%list
      | Ok None =>
          ((if is_directory then [DirDeletedEvent src_path]
            else [FileDeletedEvent src_path])
           ++ [_parent_dir_modified src_path], None)%list
      end
  end.

(** The descriptor that a kevent names is not in the fd index. *)
Definition _descriptor_for_fd_missing (s : state) (kev : kevent.t) : Prop :=
  KeventDescriptorSet._descriptor_for_fd (_descriptors s.1) !! kevent.ident kev = None.

(** [_gen_kqueue_events]. *)
Definition _gen_kqueue_events (em : t) (kev : kevent.t)
    (ref_snapshot new_snapshot : DirectorySnapshot.t) (dbs : dbstore) : generated :=
  match KeventDescriptorSet.get_for_fd (_descriptors em) (kevent.ident kev) with
  | Raise e => ([], Some e)
  | Ok descriptor =>
      let src_path := KeventDescriptor.path descriptor in
      if is_renamed kev then
        _gen_renamed_events em src_path (KeventDescriptor.is_directory descriptor)
                            ref_snapshot new_snapshot dbs
      else if is_attrib_modified kev then
        if KeventDescriptor.is_directory descriptor
        then ([DirModifiedEvent src_path], None)
        else ([FileModifiedEvent src_path], None)
      else if is_modified kev then
        if KeventDescriptor.is_directory descriptor then
          if watch_is_recursive em || bool_decide (watch_path em = src_path)
          then ([DirModifiedEvent src_path], None)
          else ([], None)
        else ([FileModifiedEvent src_path], None)
      else if is_deleted kev then
        if KeventDescriptor.is_directory descriptor
        then ([DirDeletedEvent src_path], None)
        else ([FileDeletedEvent src_path], None)
      else ([], None)
  end.

(** [for event in events: self.queue_event(event)]. *)
Fixpoint queue_all (events : list event) (s : state) : state * result unit :=
  match events with
  | [] => (s, Ok ())
  | ev :: rest =>
      match queue_event ev s with
      | (s', Ok _) => queue_all rest s'
      | (s', Raise e) => (s', Raise e)
      end
  end.

(** A generator consumed by [queue_event]: the events it yields are
    queued one by one, then the exception that ended it is raised. *)
Definition queue_generated (g : generated) (s : state) : state * result unit :=
  match queue_all g.1 s with
  | (s', Ok _) =>
      match g.2 with
      | None => (s', Ok ())
      | Some e => (s', Raise e)
      end
  | (s', Raise e) => (s', Raise e)
  end.

(** One of the first three loops of step 5:
    [for p in diff_events.name: self.queue_event(mk(p))]. *)
Definition queue_attr (diff_events : DirectorySnapshotDiff.t) (name : string)
    (mk : string → event) (s : state) : state * result unit :=
  match DirectorySnapshotDiff.getattr diff_events name
        ≫= DirectorySnapshotDiff.iterate with
  | Raise e => (s, Raise e)
  | Ok ps => queue_all (mk <$> ps) s
  end.

Definition queue_diff_events (diff_events : DirectorySnapshotDiff.t) (s : state)
    : state * result unit :=
  match queue_attr diff_events "dirs_created" DirCreatedEvent s with
  | (s1, Raise e) => (s1, Raise e)
  | (s1, Ok _) =>
      match queue_attr diff_events "files_created" FileCreatedEvent s1 with
      | (s2, Raise e) => (s2, Raise e)
      | (s2, Ok _) => queue_attr diff_events "files_modified" FileModifiedEvent s2
      end
  end.

(** The last loop of step 5, over the kevents read. *)
Fixpoint queue_kqueue_events (event_list : list kevent.t)
    (ref_snapshot new_snapshot : DirectorySnapshot.t) (dbs : dbstore)
    (s : state) : state * result unit :=
  match event_list with
  | [] => (s, Ok ())
  | kev :: rest =>
      match queue_generated
              (_gen_kqueue_events s.1 kev ref_snapshot new_snapshot dbs) s with
      | (s', Ok _) => queue_kqueue_events rest ref_snapshot new_snapshot dbs s'
      | (s', Raise e) => (s', Raise e)
      end
  end.

(** [_read_events]: the kernel is given the contents of the list object
    that [kevents] names. *)
Definition _read_events (timeout : pyfloat) (s : state)
    : state * result (list kevent.t) :=
  let '(em, σ) := s in
  let changelist := default [] (heap σ !! KeventDescriptorSet.kevents (_descriptors em)) in
  let '(w, r) := kqueue_control (world σ) changelist MAX_EVENTS timeout in
  ((em, {| world := w; heap := heap σ |}), r).

(** Step 3 of [queue_events]: the fresh snapshot. *)
Definition take_snapshot (fuel : nat) (s : state) (dbs : dbstore)
    : option (state * dbstore * result DirectorySnapshot.t) :=
  DirectorySnapshot.call os_stat_hook os_scandir_hook (cycle_snapshot_args s.1)
                         fuel s dbs.

(** The body of the [try] of [queue_events]. *)
Definition queue_events_try (timeout : pyfloat) (fuel : nat) (s : state)
    (dbs : dbstore) : option (state * dbstore * result unit) :=
  match _read_events timeout s with
  | (s1, Raise e) => Some (s1, dbs, Raise e)
  | (s1, Ok event_list) =>
      let event_list := reverse event_list in
      match take_snapshot fuel s1 dbs with
      | None => None
      | Some (s2, dbs2, Raise e) => Some (s2, dbs2, Raise e)
      | Some (s2, dbs2, Ok new_snapshot) =>
          match _snapshot s2.1 with
          | None => Some (s2, dbs2, Raise AttributeError)
          | Some ref_snapshot =>
              let s3 := (set_snapshot s2.1 new_snapshot, s2.2) in
              match DirectorySnapshot_sub new_snapshot ref_snapshot dbs2 with
              | Raise e => Some (s3, dbs2, Raise e)
              | Ok diff_events =>
                  match queue_diff_events diff_events s3 with
                  | (s4, Raise e) => Some (s4, dbs2, Raise e)
                  | (s4, Ok _) =>
                      let '(s5, r) :=
                        queue_kqueue_events event_list ref_snapshot new_snapshot
                                            dbs2 s4 in
                      Some (s5, dbs2, r)
                  end
              end
          end
      end
  end.

(** The handler of [queue_events]:
    [except OSError as e: if e.errno != errno.EBADF: raise]. *)
Definition except_EBADF (r : result unit) : result unit :=
  match r with
  | Raise (OSError errno) =>
      if bool_decide (errno ≠ EBADF) then Raise (OSError errno) else Ok ()
  | _ => r
  end.

(** [queue_events]: an [OSError] with errno [EBADF] ends the cycle
    quietly, every other exception goes on to the caller. *)
Definition queue_events (timeout : pyfloat) (fuel : nat) (s : state)
    (dbs : dbstore) : option (state * dbstore * result unit) :=
  match queue_events_try timeout fuel s dbs with
  | None => None
  | Some (s', dbs', r) => Some (s', dbs', except_EBADF r)
  end.

(** [on_thread_stop]. *)
Definition on_thread_stop (s : state) : state * result unit :=
  let '(em, σ) := s in
  match KeventDescriptorSet.clear (_descriptors em) σ with
  | ((ds, σ1), Raise e) => ((set_descriptors em ds, σ1), Raise e)
  | ((ds, σ1), Ok _) =>
      let '(w, r) := kqueue_close (world σ1) in
      ((set_descriptors em ds, {| world := w; heap := heap σ1 |}), r)
  end.
End emitter.
End KqueueEmitter.

(** ** A small platform for the examples

    Floats are integers; the operating system is a table of stat results,
    a table of directory listings, a table of paths whose [open] fails
    with an errno, the next free descriptor and the kevents the kernel
    will deliver. *)
Module Example.
#[export] Instance float_Z : PyFloat := {| pyfloat := Z; is_nan := λ _, false |}.

Record toy_world := {
  files : gmap string stat_result;
  listings : gmap string (list string);
  open_errno : gmap string Z;
  next_fd : Z;
  pending : list kevent.t;
}.

Fixpoint drop_last_component (s : string) : option string :=
  match s with
  | EmptyString => None
  | String c s' =>
      match drop_last_component s' with
      | Some d => Some (String c d)
      | None => if bool_decide (String c "" = "/") then Some "" else None
      end
  end.

(** The database file that a name opens: [./x] and [x] are two names of
    one file, and nothing can be opened under [/nodir]. *)
Definition toy_file (name : string) : option string :=
  if String.prefix "/nodir/" name then None
  else if String.prefix "./" name
       then Some (String.substring 2 (String.length name - 2) name)
       else Some name.

#[export] Instance toy : Platform := {|
  World := toy_world;
  absolute_path := λ p, p;
  absolute_path_idemp := λ p, eq_refl;
  os_path_join := λ a b, a ++ "/" ++ b;
  os_path_dirname := λ p, default "" (drop_last_component p);
  os_stat := λ w p,
    match files w !! p with
    | Some st => Ok st
    | None => Raise (OSError ENOENT)
    end;
  os_scandir := λ w p,
    match listings w !! p with
    | Some names => Ok names
    | None => Raise (OSError ENOTDIR)
    end;
  os_open := λ w p _,
    match open_errno w !! p with
    | Some errno => (w, Raise (OSError errno))
    | None =>
        ({| files := files w; listings := listings w;
            open_errno := open_errno w; next_fd := (next_fd w + 1)%Z;
            pending := pending w |}, Ok (next_fd w))
    end;
  os_close := λ w _, (w, Ok ());
  select_kqueue := λ w, (w, Ok ());
  kqueue_control := λ w _ _ _,
    ({| files := files w; listings := listings w;
        open_errno := open_errno w; next_fd := next_fd w;
        pending := [] |}, Ok (pending w));
  kqueue_close := λ w, (w, Ok ());
  is_darwin := true;
  mode_t_max := 65535;
  sqlite3_file := toy_file;
  generate_sub_moved_events := λ _ _, [];
|}.

(** A directory and a regular file, as [os.stat] reports them. *)
Definition dir_stat (ino mtime : Z) : stat_result :=
  {| st_mode := 16877; st_ino := ino; st_dev := 1; st_mtime := mtime; st_size := 64 |}.
Definition file_stat (ino mtime size : Z) : stat_result :=
  {| st_mode := 33188; st_ino := ino; st_dev := 1; st_mtime := mtime; st_size := size |}.

(** The tree [/w] with the file [/w/a]. *)
Definition world_a : toy_world :=
  {| files := {[ "/w" := dir_stat 2 100; "/w/a" := file_stat 3 100 10 ]};
     listings := {[ "/w" := ["a"] ]};
     open_errno := ∅; next_fd := 3; pending := [] |}.

(** The same tree after [/w/b] was created and [/w/a] was written. *)
Definition world_ab : toy_world :=
  {| files := {[ "/w" := dir_stat 2 101; "/w/a" := file_stat 3 101 15;
                 "/w/b" := file_stat 4 101 0 ]};
     listings := {[ "/w" := ["a"; "b"] ]};
     open_errno := ∅; next_fd := 3; pending := [] |}.

(** The row of a directory or file, with the rowid it was given. *)
Definition dir_row (rowid : Z) (st : stat_result) : row :=
  DirectorySnapshot.stat_row rowid true st.
Definition file_row (rowid : Z) (st : stat_result) : row :=
  DirectorySnapshot.stat_row rowid false st.

(** Two database files holding the snapshots of the two trees. *)
Definition dbs_ab : dbstore :=
  {[ "old.db" := {[ "/w" := dir_row 1 (dir_stat 2 100);
                    "/w/a" := file_row 2 (file_stat 3 100 10) ]};
     "new.db" := {[ "/w" := dir_row 1 (dir_stat 2 101);
                    "/w/a" := file_row 2 (file_stat 3 101 15);
                    "/w/b" := file_row 3 (file_stat 4 101 0) ]} ]}.

Definition snap_old : DirectorySnapshot.t :=
  {| DirectorySnapshot.recursive := true; DirectorySnapshot.db_path := "old.db" |}.
Definition snap_new : DirectorySnapshot.t :=
  {| DirectorySnapshot.recursive := true; DirectorySnapshot.db_path := "new.db" |}.

(** A tree in which [open] fails: [/w/tmp] has vanished, [/w/sock] does
    not support it, and [/w/many] finds no free descriptor. *)
Definition world_failing : toy_world :=
  {| files := {[ "/w" := dir_stat 2 100; "/w/tmp" := file_stat 5 100 0;
                 "/w/sock" := file_stat 6 100 0; "/w/many" := file_stat 7 100 0 ]};
     listings := {[ "/w" := ["tmp"; "sock"; "many"] ]};
     open_errno := {[ "/w/tmp" := ENOENT; "/w/sock" := EOPNOTSUPP;
                      "/w/many" := EMFILE ]};
     next_fd := 3; pending := [] |}.

(** An emitter watching [/w] recursively, with an empty descriptor set
    and [snap_old] as its saved snapshot, in a process whose operating
    system is [w]. *)
Definition emitter_on (w : toy_world) : KqueueEmitter.state :=
  let '(ds, σ) := KeventDescriptorSet.new {| world := w; heap := ∅ |} in
  ({| KqueueEmitter.watch_path := "/w";
      KqueueEmitter.watch_is_recursive := true;
      KqueueEmitter.event_queue := [];
      KqueueEmitter._descriptors := ds;
      KqueueEmitter._snapshot := Some snap_old |}, σ).

(** The same emitter after [/w/a] was registered; its descriptor is 3. *)
Definition emitter_a : KqueueEmitter.state :=
  (KqueueEmitter._register_kevent "/w/a" false (emitter_on world_a)).1.

(** An emitter in [world_ab] that holds descriptor 3 for [/w/b], a path
    that its saved snapshot [snap_old] does not have. *)
Definition emitter_b : KqueueEmitter.state :=
  (KqueueEmitter._register_kevent "/w/b" false (emitter_on world_ab)).1.

(** [os.stat] and [os.scandir] for a caller whose whole state is the
    operating system, and [DirectorySnapshot("/w", name)] with these
    defaults. *)
Definition toy_stat : DirectorySnapshot.hook toy_world stat_result :=
  DirectorySnapshot.os_stat_default (λ w : toy_world, w).
Definition toy_listdir : DirectorySnapshot.hook toy_world (list string) :=
  DirectorySnapshot.os_scandir_default (λ w : toy_world, w).
Definition snapshot_of (w : toy_world) (name : string) (dbs : dbstore)
    : option (toy_world * dbstore * result DirectorySnapshot.t) :=
  DirectorySnapshot.init "/w" (DbStr name) true toy_stat toy_listdir 2 w dbs.

(** Hooks that answer from the operating system [w] whatever the state of
    their caller, which is empty. *)
Definition fixed_stat (w : toy_world) : DirectorySnapshot.hook unit stat_result :=
  λ s p, (s, os_stat w p).
Definition fixed_listdir (w : toy_world) : DirectorySnapshot.hook unit (list string) :=
  λ s p, (s, os_scandir w p).

(** A kevent for descriptor [fd] with the flags [fflags]. *)
Definition kev (fd fflags : Z) : kevent.t :=
  {| kevent.ident := fd; kevent.filter := WATCHDOG_KQ_FILTER;
     kevent.flags := WATCHDOG_KQ_EV_FLAGS; kevent.fflags := fflags |}.

(** [world_a] when the kernel holds two kevents to deliver: one for
    descriptor 7, which no path was registered under, and one for
    descriptor 3. *)
Definition world_a_events : toy_world :=
  {| files := files world_a; listings := listings world_a;
     open_errno := ∅; next_fd := 3;
     pending := [kev 3 KQ_NOTE_WRITE; kev 7 KQ_NOTE_WRITE] |}.

(** The emitter in that world after [/w/a] was registered, under
    descriptor 3. *)
Definition emitter_a_events : KqueueEmitter.state :=
  (KqueueEmitter._register_kevent "/w/a" false (emitter_on world_a_events)).1.

(** A descriptor set to which [/w/a] was added, and the process it lives
    in. *)
Definition set_a : KeventDescriptorSet.t * sys :=
  let '(ds, σ) := KeventDescriptorSet.new {| world := world_a; heap := ∅ |} in
  (KeventDescriptorSet.add ds "/w/a" false σ).1.
End Example.

(** * Properties *)

Section diff_properties.
Context `{Platform}.
Implicit Types (previous current a b : DirectorySnapshot.t) (dbs : dbstore).

(** What [compute_diff_step] tests, on the two tables. *)
Definition row_changed (tp tc : gmap string row) (p : string) : Prop :=
  (r_inode <$> tp !! p, r_device <$> tp !! p)
    ≠ (r_inode <$> tc !! p, r_device <$> tc !! p)
  ∨ tp !! p ≫= r_mtime ≠ tc !! p ≫= r_mtime.

Global Instance row_changed_dec tp tc p : Decision (row_changed tp tc p).
Proof. unfold row_changed. apply _. Defined.

Lemma compute_diff_step_spec previous current dbs tp tc m p :
  DirectorySnapshot.select_table previous dbs = Ok tp →
  DirectorySnapshot.select_table current dbs = Ok tc →
  DirectorySnapshotDiff.compute_diff_step previous current dbs m p
  = Ok (if decide (row_changed tp tc p) then {[p]} ∪ m else m).
Proof.
  intros Hp Hc.
  unfold DirectorySnapshotDiff.compute_diff_step, DirectorySnapshot.inode,
    DirectorySnapshot.mtime.
  rewrite Hp, Hc. simpl.
  destruct (decide (row_changed tp tc p)) as [Hch|Hch];
    unfold row_changed in Hch;
    destruct (tp !! p) as [rp|], (tc !! p) as [rc|]; simpl in *;
    repeat (case_bool_decide; simpl); try done.
  all: exfalso;
    first [ destruct Hch as [Hch|Hch]; apply Hch; congruence
          | apply Hch; first [left; congruence | right; congruence] ].
Qed.

Lemma compute_diff_loop_spec previous current dbs tp tc l m :
  DirectorySnapshot.select_table previous dbs = Ok tp →
  DirectorySnapshot.select_table current dbs = Ok tc →
  ∃ m', for_each (DirectorySnapshotDiff.compute_diff_step previous current dbs) l m
        = Ok m'
        ∧ ∀ p, p ∈ m' ↔ p ∈ m ∨ (p ∈ l ∧ row_changed tp tc p).
Proof.
  intros Hp Hc. revert m.
  induction l as [|x l IH]; intros m; simpl.
  - exists m. split; [done|]. intros p. set_solver.
  - rewrite (compute_diff_step_spec _ _ _ tp tc) by done. simpl.
    destruct (IH (if decide (row_changed tp tc x) then {[x]} ∪ m else m))
      as (m' & -> & Hm').
    exists m'. split; [done|]. intros p. rewrite Hm'.
    case_decide; set_solver.
Qed.
(** The diff of two snapshots whose tables exist, in terms of the
    tables. *)
Lemma sub_tables current previous dbs tc tp :
  DirectorySnapshot.select_table current dbs = Ok tc →
  DirectorySnapshot.select_table previous dbs = Ok tp →
  ∃ d, DirectorySnapshot_sub current previous dbs = Ok d
    ∧ DirectorySnapshotDiff.added d = dom tc ∖ dom tp
    ∧ DirectorySnapshotDiff.removed d = dom tp ∖ dom tc
    ∧ ∀ p, p ∈ DirectorySnapshotDiff.modified d
           ↔ p ∈ dom tp ∧ p ∈ dom tc ∧ row_changed tp tc p.
Proof.
  intros Hc Hp.
  unfold DirectorySnapshot_sub, DirectorySnapshotDiff.new,
    DirectorySnapshotDiff.compute_diff, DirectorySnapshot.paths.
  rewrite Hc, Hp. simpl.
  destruct (compute_diff_loop_spec previous current dbs tp tc
              (elements (dom tp ∩ dom tc)) ∅ Hp Hc) as (m & -> & Hm).
  simpl. eexists. split; [done|]. simpl.
  split; [done|]. split; [done|].
  intros p. rewrite Hm, elem_of_elements. set_solver.
Qed.

(** A diff exists only for snapshots whose tables exist. *)
Lemma sub_Ok_tables current previous dbs d :
  DirectorySnapshot_sub current previous dbs = Ok d →
  ∃ tc tp, DirectorySnapshot.select_table current dbs = Ok tc
           ∧ DirectorySnapshot.select_table previous dbs = Ok tp.
Proof.
  unfold DirectorySnapshot_sub, DirectorySnapshotDiff.new,
    DirectorySnapshotDiff.compute_diff, DirectorySnapshot.paths.
  destruct (DirectorySnapshot.select_table previous dbs) as [tp|]; [|done].
  destruct (DirectorySnapshot.select_table current dbs) as [tc|]; [|done].
  eauto.
Qed.

Lemma row_changed_sym tp tc p : row_changed tp tc p ↔ row_changed tc tp p.
Proof. unfold row_changed. naive_solver. Qed.

(** C4. For two snapshots [previous] and [current] that can be read
    (their path sets are [pp] and [cp]), the diff [current - previous]
    exists and has [added = cp ∖ pp], [removed = pp ∖ cp], [modified] =
    the paths of both snapshots whose (inode, device) differ or, these
    being equal, whose mtime differs; and the three sets are pairwise
    disjoint. *)
Theorem diff_sets previous current dbs pp cp :
  DirectorySnapshot.paths previous dbs = Ok pp →
  DirectorySnapshot.paths current dbs = Ok cp →
  ∃ d, DirectorySnapshot_sub current previous dbs = Ok d
    ∧ DirectorySnapshotDiff.added d = cp ∖ pp
    ∧ DirectorySnapshotDiff.removed d = pp ∖ cp
    ∧ (∀ p, p ∈ DirectorySnapshotDiff.modified d ↔
         p ∈ pp ∧ p ∈ cp ∧
         (DirectorySnapshot.inode previous dbs p ≠ DirectorySnapshot.inode current dbs p
          ∨ (DirectorySnapshot.inode previous dbs p = DirectorySnapshot.inode current dbs p
             ∧ DirectorySnapshot.mtime previous dbs p
               ≠ DirectorySnapshot.mtime current dbs p)))
    ∧ DirectorySnapshotDiff.added d ## DirectorySnapshotDiff.removed d
    ∧ DirectorySnapshotDiff.added d ## DirectorySnapshotDiff.modified d
    ∧ DirectorySnapshotDiff.removed d ## DirectorySnapshotDiff.modified d.
Proof.
  unfold DirectorySnapshot.paths, DirectorySnapshot.inode, DirectorySnapshot.mtime.
  destruct (DirectorySnapshot.select_table previous dbs) as [tp|] eqn:Hp; [|done].
  destruct (DirectorySnapshot.select_table current dbs) as [tc|] eqn:Hc; [|done].
  simpl. intros [= <-] [= <-].
  destruct (sub_tables current previous dbs tc tp Hc Hp) as (d & Hd & Ha & Hr & Hm).
  exists d. split; [done|]. split; [done|]. split; [done|].
  split; [|rewrite Ha, Hr; set_solver].
  intros p. rewrite Hm. unfold row_changed.
  rewrite !elem_of_dom.
  split.
  - intros ([rp Hrp] & [rc Hrc] & Hch). split; [eauto|]. split; [eauto|].
    rewrite Hrp, Hrc in *. simpl in *.
    destruct (decide ((Some (r_inode rp), Some (r_device rp))
                      = (Some (r_inode rc), Some (r_device rc)))) as [Heq|Hne].
    + right. split; [congruence|]. destruct Hch as [?|?]; congruence.
    + left. congruence.
  - intros ([rp Hrp] & [rc Hrc] & Hch). split; [eauto|]. split; [eauto|].
    rewrite Hrp, Hrc in *. simpl in *.
    destruct Hch as [Hch|[_ Hch]]; [left|right]; congruence.
Qed.

(** C6. The diff [a - b] is the inverse of [b - a]: whenever one
    exists so does the other, [added] and [removed] are exchanged and
    [modified] is the same set. *)
Theorem diff_inverse a b dbs dab :
  DirectorySnapshot_sub a b dbs = Ok dab →
  ∃ dba, DirectorySnapshot_sub b a dbs = Ok dba
    ∧ DirectorySnapshotDiff.added dab = DirectorySnapshotDiff.removed dba
    ∧ DirectorySnapshotDiff.removed dab = DirectorySnapshotDiff.added dba
    ∧ DirectorySnapshotDiff.modified dab = DirectorySnapshotDiff.modified dba.
Proof.
  intros Hab.
  destruct (sub_Ok_tables _ _ _ _ Hab) as (ta & tb & Ha & Hb).
  destruct (sub_tables a b dbs ta tb Ha Hb) as (d & Hd & Hadd & Hrem & Hmod).
  rewrite Hab in Hd. injection Hd as <-.
  destruct (sub_tables b a dbs tb ta Hb Ha) as (d' & Hd' & Hadd' & Hrem' & Hmod').
  exists d'. split; [done|].
  rewrite Hadd, Hrem, Hadd', Hrem'. split; [done|]. split; [done|].
  apply set_eq. intros p. rewrite Hmod, Hmod', (row_changed_sym tb ta). naive_solver.
Qed.
End diff_properties.

Section emitter_properties.
Context `{Platform}.
Import KqueueEmitter.

Lemma set_descriptors_same (em : KqueueEmitter.t) :
  set_descriptors em (_descriptors em) = em.
Proof. by destruct em. Qed.

(** [_register_kevent] queues nothing. *)
Lemma register_kevent_queue path is_directory (s : state) :
  event_queue (_register_kevent path is_directory s).1.1 = event_queue s.1.
Proof.
  destruct s as [em σ]. unfold _register_kevent.
  destruct (KeventDescriptorSet.add _ _ _ _) as [[ds σ'] [[]|e]]; [done|].
  destruct e; try done. repeat case_bool_decide; done.
Qed.

(** C8. When the [open] of a path that is not yet registered fails with
    an [OSError], [_register_kevent] leaves the emitter as it was, its
    event queue included; with errno [ENOENT] or [EOPNOTSUPP] it returns
    normally, with any other errno it raises that [OSError]. *)
Theorem register_kevent_open_failure path is_directory em (σ : sys) w' errno :
  KeventDescriptorSet._has_path (_descriptors em) (absolute_path path) = false →
  os_open (world σ) (absolute_path path) WATCHDOG_OS_OPEN_FLAGS
    = (w', Raise (OSError errno)) →
  _register_kevent path is_directory (em, σ)
  = ((em, {| world := w'; heap := heap σ |}),
     if bool_decide (errno = ENOENT ∨ errno = EOPNOTSUPP)
     then Ok () else Raise (OSError errno)).
Proof.
  intros Hnew Hopen.
  unfold _register_kevent, KeventDescriptorSet.add, KeventDescriptor.new.
  rewrite Hnew, Hopen, set_descriptors_same.
  repeat case_bool_decide; naive_solver.
Qed.

(** [queue_events] does not come to the translation of kevents: once
    the kevents are read, the call [DirectorySnapshot(self.watch.path,
    self.watch.is_recursive)] hands the boolean to [sqlite3.connect],
    which raises [TypeError]; the handler lets it through, and nothing was
    queued. *)
Lemma queue_events_outcome timeout fuel (s : state) dbs :
  queue_events timeout fuel s dbs
  = Some ((_read_events timeout s).1, dbs,
          match (_read_events timeout s).2 with
          | Raise e => except_EBADF (Raise e)
          | Ok _ => Raise TypeError
          end).
Proof.
  unfold queue_events, queue_events_try.
  destruct (_read_events timeout s) as [s1 [event_list|e]]; done.
Qed.


(** The rename branch with a readable reference snapshot: [inode] returns
    a pair, so the [KeyError] handler is not entered, and the call of
    [path] with that one pair raises [TypeError] before any event. *)
Lemma gen_renamed_events_TypeError em src_path is_directory
    ref_snapshot new_snapshot dbs tbl :
  DirectorySnapshot.select_table ref_snapshot dbs = Ok tbl →
  _gen_renamed_events em src_path is_directory ref_snapshot new_snapshot dbs
  = ([], Some TypeError).
Proof.
  intros Htbl. unfold _gen_renamed_events, DirectorySnapshot.inode.
  rewrite Htbl. simpl. by destruct (tbl !! src_path).
Qed.

(** [inode] never raises [KeyError]. *)
Lemma inode_not_KeyError self dbs path :
  DirectorySnapshot.inode self dbs path ≠ Raise KeyError.
Proof.
  unfold DirectorySnapshot.inode, DirectorySnapshot.select_table, sqlite3_connect.
  repeat case_match; simplify_eq; done.
Qed.

(** C1, as the code has it. A diff object has no attribute
    [dirs_created], [files_created] or [files_modified]; the first of the
    loops of step 5 raises [AttributeError], and no event is queued. *)
Theorem diff_categories_missing (d : DirectorySnapshotDiff.t) (s : state) :
  DirectorySnapshotDiff.getattr d "dirs_created" = Raise AttributeError
  ∧ DirectorySnapshotDiff.getattr d "files_created" = Raise AttributeError
  ∧ DirectorySnapshotDiff.getattr d "files_modified" = Raise AttributeError
  ∧ queue_diff_events d s = (s, Raise AttributeError).
Proof. done. Qed.
End emitter_properties.

Section descriptor_set_properties.
Context `{Platform}.
Import KeventDescriptorSet.

Lemma new_list_keeps (h : pyheap) l (xs : list kevent.t) :
  h !! l = Some xs → (new_list h).2 !! l = Some xs.
Proof.
  intros Hl. unfold new_list. simpl.
  rewrite lookup_insert_ne; [done|].
  intros <-. apply (is_fresh (dom h)), elem_of_dom. eauto.
Qed.

Lemma new_list_fresh (h : pyheap) : (new_list h).1 ∉ dom h.
Proof. apply is_fresh. Qed.

(** C10, as the code has it. [kevents] returns the list object that the
    set holds, not a copy.  A list obtained from it keeps its contents
    when the set is cleared, which binds the set to a new list object; a
    later [add] of a path that is not yet in the set appends the kevent
    of the new descriptor to that very list, and a later [remove] of a
    path of the set takes the kevent of its descriptor out of it. *)
Theorem kevents_is_alias (self : t) (σ : sys) (l : list kevent.t) :
  heap σ !! kevents self = Some l →
  kevents self = _kevents self
  ∧ (∀ self' σ' r,
       clear self σ = ((self', σ'), r) →
       heap σ' !! kevents self = Some l
       ∧ (r = Ok () → kevents self' ≠ kevents self))
  ∧ (∀ path is_directory self' σ',
       _has_path self (absolute_path path) = false →
       add self path is_directory σ = ((self', σ'), Ok ()) →
       kevents self' = kevents self
       ∧ ∃ d, _descriptor_for_path self' !! absolute_path path = Some d
              ∧ heap σ' !! kevents self = Some (l ++ [KeventDescriptor.kevent d])%list)
  ∧ (∀ path self' σ',
       _has_path self (absolute_path path) = true →
       remove self path σ = ((self', σ'), Ok ()) →
       kevents self' = kevents self
       ∧ ∃ d l', _descriptor_for_path self !! absolute_path path = Some d
                 ∧ remove_first (KeventDescriptor.kevent d) l = Some l'
                 ∧ heap σ' !! kevents self = Some l').
Proof.
  intros Hl. split; [done|]. split; [|split].
  - intros self' σ' r. unfold clear.
    destruct (close_all _ _) as [w [[]|e]].
    + pose proof (new_list_keeps (heap σ) _ _ Hl) as Hkeep.
      pose proof (new_list_fresh (heap σ)) as Hfresh.
      destruct (new_list (heap σ)) as [l' h'] eqn:Hnew. simpl in *.
      intros [= <- <- <-]. simpl. split; [done|].
      intros _ Heq. unfold kevents in *. simpl in Heq. subst l'.
      apply Hfresh, elem_of_dom. eauto.
    + intros [= <- <- <-]. simpl. split; [done|]. done.
  - intros path is_directory self' σ' Hnew. unfold add. rewrite Hnew.
    unfold KeventDescriptor.new.
    destruct (os_open _ _ _) as [w [fd|e]]; [|done].
    unfold _add_descriptor. simpl. intros [= <- <-]. simpl.
    split; [done|]. eexists. split.
    { rewrite absolute_path_idemp. apply lookup_insert_eq. }
    unfold kevents in *. simpl. by rewrite lookup_alter_eq, Hl.
  - intros path self' σ' Hhas. unfold remove. rewrite Hhas. unfold _get.
    destruct (_descriptor_for_path self !! absolute_path path) as [d|] eqn:Hd; [|done].
    unfold _remove_descriptor.
    destruct (_descriptors self !! KeventDescriptor.key d); [|done]. simpl.
    destruct (_descriptor_for_fd self !! KeventDescriptor.fd d); [|done]. simpl.
    destruct (_descriptor_for_path self !! KeventDescriptor.path d); [|done]. simpl.
    unfold kevents in Hl. rewrite Hl. simpl.
    destruct (remove_first (KeventDescriptor.kevent d) l) as [l'|] eqn:Hrm; [|done].
    destruct (KeventDescriptor.close d (world σ)) as [w r].
    intros [= <- <- ->]. simpl. split; [done|].
    exists d, l'. split; [done|]. split; [done|].
    unfold kevents. simpl. apply lookup_insert_eq.
Qed.
End descriptor_set_properties.

(** ** The walk: invariants *)

Section walk_invariant.
Context `{Platform} {T : Type}.
Import DirectorySnapshot.
Variable stat : hook T stat_result.
Variable listdir : hook T (list string).
Variable self_recursive : bool.
Variable consume : string * stat_result → T → T * result unit.

(** [P] is the invariant; [Q p st t] is what a successful [stat] of [p]
    establishes and the consumer of the entry [(p, st)] may rely on. *)
Variable P : T → Prop.
Variable Q : string → stat_result → T → Prop.
Hypothesis stat_inv : ∀ t p, P t →
  P (stat t p).1 ∧ ∀ st, (stat t p).2 = Ok st → Q p st (stat t p).1.
Hypothesis listdir_inv : ∀ t p, P t → P (listdir t p).1.
Hypothesis consume_inv : ∀ p st t, P t → Q p st t → P (consume (p, st) t).1.

Lemma walk_entries_inv paths t :
  P t → P (walk_entries stat consume paths t).1.
Proof.
  revert t. induction paths as [|p ps IH]; intros t Ht; simpl; [done|].
  destruct (stat_inv t p Ht) as [Hs HQ].
  destruct (stat t p) as [s1 [st|e]]; simpl in *.
  - pose proof (consume_inv p st s1 Hs (HQ st eq_refl)) as Hc.
    destruct (consume (p, st) s1) as [s2 [[]|e]]; simpl in *; [|done].
    specialize (IH s2 Hc).
    by destruct (walk_entries stat consume ps s2) as [s3 [entries fin]].
  - destruct (is_OSError e); [by apply IH|done].
Qed.

Lemma walk_subdirs_inv (walk_rec : string → T → option (T * gen_end)) :
  (∀ p t t' fin, P t → walk_rec p t = Some (t', fin) → P t') →
  ∀ entries t t' fin,
    P t → walk_subdirs walk_rec entries t = Some (t', fin) → P t'.
Proof.
  intros Hrec. induction entries as [|[path st] rest IH]; intros t t' fin Ht; simpl.
  - by intros [= <- <-].
  - destruct (S_ISDIR (st_mode st)) as [[]|e'].
    2:{ by apply IH. }
    2:{ destruct (is_PermissionError e'); [by apply IH|by intros [= <- <-]]. }
    destruct (walk_rec path t) as [[s1 [|e|e]]|] eqn:Hw; [| | |done].
    + apply IH. by eapply Hrec.
    + destruct (is_PermissionError e).
      * apply IH. by eapply Hrec.
      * intros [= <- <-]. by eapply Hrec.
    + intros [= <- <-]. by eapply Hrec.
Qed.

Lemma walk_inv fuel root t t' fin :
  P t →
  walk stat listdir self_recursive consume fuel root t = Some (t', fin) →
  P t'.
Proof.
  revert root t t' fin. induction fuel as [|fuel IH]; intros root t t' fin Ht; [done|].
  simpl. pose proof (listdir_inv t root Ht) as Hl.
  destruct (listdir t root) as [s1 [names|e]]; simpl in *.
  - pose proof (walk_entries_inv (os_path_join root <$> names) s1 Hl) as He.
    destruct (walk_entries stat consume (os_path_join root <$> names) s1)
      as [s2 [entries [|e|e]]]; simpl in *.
    + destruct self_recursive.
      * apply walk_subdirs_inv; [|done]. intros p u u' f Hu. by apply IH.
      * by intros [= <- <-].
    + by intros [= <- <-].
    + by intros [= <- <-].
  - case_bool_decide; by intros [= <- <-].
Qed.
End walk_invariant.

(** ** A construction writes one database file *)

Section construction_frame.
Context `{Platform} {S : Type}.
Import DirectorySnapshot.

Lemma create_table_lookup_ne name other (dbs : dbstore) :
  name ≠ other → create_table name dbs !! other = dbs !! other.
Proof.
  intros Hne. unfold create_table.
  destruct (dbs !! name); [done|]. by rewrite lookup_insert_ne.
Qed.

Lemma add_entry_to_db_lookup_ne name other path st (dbs : dbstore) :
  name ≠ other → (add_entry_to_db name path st dbs).1 !! other = dbs !! other.
Proof.
  intros Hne. unfold add_entry_to_db.
  repeat case_match; simpl; try done. by rewrite lookup_insert_ne.
Qed.

Lemma lift_hook_dbs {A} (h : hook S A) (s : S) (dbs : dbstore) p :
  (lift_hook h (s, dbs) p).1.2 = dbs.
Proof. unfold lift_hook. by destruct (h s p). Qed.

Lemma consume_entry_lookup_ne name other entry (s : S) (dbs : dbstore) :
  name ≠ other → (consume_entry name entry (s, dbs)).1.2 !! other = dbs !! other.
Proof.
  intros Hne. unfold consume_entry.
  pose proof (add_entry_to_db_lookup_ne name other entry.1 entry.2 dbs Hne) as Hadd.
  by destruct (add_entry_to_db name entry.1 entry.2 dbs).
Qed.

(** What follows the connection leaves every database but its own as it
    was. *)
Lemma init_run_frame id path self_recursive (stat : hook S stat_result)
    (listdir : hook S (list string)) fuel s dbs s' dbs' r other :
  id ≠ other →
  init_run id path self_recursive stat listdir fuel s dbs = Some (s', dbs', r) →
  dbs' !! other = dbs !! other.
Proof.
  intros Hne. unfold init_run.
  destruct (stat s path) as [s1 [st|e]].
  2:{ intros [= <- <- <-]. by apply create_table_lookup_ne. }
  pose proof (add_entry_to_db_lookup_ne id other path st
                (create_table id dbs) Hne) as Hadd.
  rewrite create_table_lookup_ne in Hadd by done.
  destruct (add_entry_to_db id path st (create_table id dbs)) as [dbs2 [[]|e]];
    simpl in Hadd.
  2:{ by intros [= <- <- <-]. }
  destruct (walk _ _ _ _ _ _ _) as [[[s2 dbs3] fin]|] eqn:Hwalk; [|done].
  assert (dbs3 !! other = dbs !! other) as Hfin.
  { eapply (walk_inv (lift_hook stat) (lift_hook listdir) self_recursive
              (consume_entry id) (λ t, t.2 !! other = dbs !! other)
              (λ _ _ _, True)) in Hwalk; [done| | | |done].
    - intros [u d] p Hu. split; [|done]. by rewrite lift_hook_dbs.
    - intros [u d] p Hu. by rewrite lift_hook_dbs.
    - intros p st' [u d] Hu _. by rewrite consume_entry_lookup_ne. }
  destruct fin; by intros [= <- <- <-].
Qed.

(** A construction leaves every database file as it was but the one it
    is connected to. *)
Lemma init_frame path db self_recursive (stat : hook S stat_result)
    (listdir : hook S (list string)) fuel s dbs s' dbs' r other :
  sqlite3_connect db ≠ Ok (File other) →
  init path db self_recursive stat listdir fuel s dbs = Some (s', dbs', r) →
  dbs' !! other = dbs !! other.
Proof.
  intros Hdb. unfold init.
  destruct (sqlite3_connect db) as [[id|]|e]; simpl.
  - destruct (init_run id _ _ _ _ _ _ _) as [[[u d] r']|] eqn:Hrun; [|done].
    intros [= <- <- <-]. eapply init_run_frame; [|done]. congruence.
  - destruct (init_run "" _ _ _ _ _ _ _) as [[[u d] r']|]; [|done].
    by intros [= <- <- <-].
  - by intros [= <- <- <-].
Qed.

(** The table that the queries of a snapshot read is that of the file
    its [db_path] names. *)
Lemma select_table_file (self : DirectorySnapshot.t) (dbs : dbstore) tbl :
  select_table self dbs = Ok tbl ↔
  ∃ id, sqlite3_connect (DbStr (db_path self)) = Ok (File id) ∧ dbs !! id = Some tbl.
Proof.
  unfold select_table. split.
  - destruct (sqlite3_connect _) as [[id|]|e]; [|done|done].
    destruct (dbs !! id) eqn:Hid; [|done]. intros [= <-]. eauto.
  - intros (id & -> & ->). done.
Qed.

Lemma select_table_same (self : DirectorySnapshot.t) (dbs dbs' : dbstore) :
  (∀ id, sqlite3_connect (DbStr (db_path self)) = Ok (File id) →
         dbs' !! id = dbs !! id) →
  select_table self dbs' = select_table self dbs.
Proof.
  intros Hsame. unfold select_table.
  destruct (sqlite3_connect _) as [[id|]|e]; [|done|done].
  by rewrite (Hsame id).
Qed.

End construction_frame.

(** ** The walk: two runs side by side *)

Section walk_simulation.
Context `{Platform} {T1 T2 : Type}.
Import DirectorySnapshot.
Variable stat1 : hook T1 stat_result.
Variable stat2 : hook T2 stat_result.
Variable listdir1 : hook T1 (list string).
Variable listdir2 : hook T2 (list string).
Variable self_recursive : bool.
Variable consume1 : string * stat_result → T1 → T1 * result unit.
Variable consume2 : string * stat_result → T2 → T2 * result unit.

(** [R] relates the states of the two runs; related states give the
    hooks and the consumer the same results. *)
Variable R : T1 → T2 → Prop.
Hypothesis stat_sim : ∀ t1 t2 p, R t1 t2 →
  R (stat1 t1 p).1 (stat2 t2 p).1 ∧ (stat1 t1 p).2 = (stat2 t2 p).2.
Hypothesis listdir_sim : ∀ t1 t2 p, R t1 t2 →
  R (listdir1 t1 p).1 (listdir2 t2 p).1 ∧ (listdir1 t1 p).2 = (listdir2 t2 p).2.
Hypothesis consume_sim : ∀ e t1 t2, R t1 t2 →
  R (consume1 e t1).1 (consume2 e t2).1 ∧ (consume1 e t1).2 = (consume2 e t2).2.

(** Two runs end alike: both need more fuel, or both end the same way in
    related states. *)
Definition ends_alike (o1 : option (T1 * gen_end)) (o2 : option (T2 * gen_end)) : Prop :=
  match o1, o2 with
  | Some (t1, fin1), Some (t2, fin2) => R t1 t2 ∧ fin1 = fin2
  | None, None => True
  | _, _ => False
  end.

Lemma walk_entries_sim paths t1 t2 :
  R t1 t2 →
  R (walk_entries stat1 consume1 paths t1).1 (walk_entries stat2 consume2 paths t2).1
  ∧ (walk_entries stat1 consume1 paths t1).2 = (walk_entries stat2 consume2 paths t2).2.
Proof.
  revert t1 t2. induction paths as [|p ps IH]; intros t1 t2 HR; simpl; [done|].
  destruct (stat_sim t1 t2 p HR) as [HR1 Heq].
  destruct (stat1 t1 p) as [u1 r1], (stat2 t2 p) as [u2 r2]. simpl in *. subst r2.
  destruct r1 as [st|e].
  - destruct (consume_sim (p, st) u1 u2 HR1) as [HR2 Heq2].
    destruct (consume1 (p, st) u1) as [v1 c1], (consume2 (p, st) u2) as [v2 c2].
    simpl in *. subst c2. destruct c1 as [[]|e]; [|done].
    destruct (IH v1 v2 HR2) as [HR3 Heq3].
    destruct (walk_entries stat1 consume1 ps v1) as [x1 [es1 f1]],
             (walk_entries stat2 consume2 ps v2) as [x2 [es2 f2]].
    simpl in *. by injection Heq3 as -> ->.
  - destruct (is_OSError e); [by apply IH|done].
Qed.

Lemma walk_subdirs_sim walk_rec1 walk_rec2 :
  (∀ p t1 t2, R t1 t2 → ends_alike (walk_rec1 p t1) (walk_rec2 p t2)) →
  ∀ entries t1 t2, R t1 t2 →
    ends_alike (walk_subdirs walk_rec1 entries t1) (walk_subdirs walk_rec2 entries t2).
Proof.
  intros Hrec. induction entries as [|[path st] rest IH]; intros t1 t2 HR; simpl; [done|].
  destruct (S_ISDIR (st_mode st)) as [[]|e'].
  2:{ by apply IH. }
  2:{ destruct (is_PermissionError e'); [by apply IH|done]. }
  specialize (Hrec path t1 t2 HR). unfold ends_alike in Hrec.
  destruct (walk_rec1 path t1) as [[u1 f1]|], (walk_rec2 path t2) as [[u2 f2]|];
    try done.
  destruct Hrec as [HR1 <-].
  destruct f1 as [|e|e]; [by apply IH| |done].
  destruct (is_PermissionError e); [by apply IH|done].
Qed.

Lemma walk_sim fuel root t1 t2 :
  R t1 t2 →
  ends_alike (walk stat1 listdir1 self_recursive consume1 fuel root t1)
             (walk stat2 listdir2 self_recursive consume2 fuel root t2).
Proof.
  revert root t1 t2. induction fuel as [|fuel IH]; intros root t1 t2 HR; [done|].
  simpl. destruct (listdir_sim t1 t2 root HR) as [HR1 Heq].
  destruct (listdir1 t1 root) as [u1 r1], (listdir2 t2 root) as [u2 r2].
  simpl in *. subst r2. destruct r1 as [names|e].
  - destruct (walk_entries_sim (os_path_join root <$> names) u1 u2 HR1) as [HR2 Heq2].
    destruct (walk_entries stat1 consume1 _ u1) as [v1 [es1 f1]],
             (walk_entries stat2 consume2 _ u2) as [v2 [es2 f2]].
    simpl in *. injection Heq2 as -> ->.
    destruct f2 as [|e|e]; [|done|done].
    destruct self_recursive; [|done].
    apply walk_subdirs_sim; [|done]. intros p x1 x2 Hx. by apply IH.
  - case_bool_decide; done.
Qed.
End walk_simulation.

(** ** Two snapshots back to back *)

Section back_to_back.
Context `{Platform} {S : Type}.
Import DirectorySnapshot.

Lemma create_table_lookup_eq name (dbs : dbstore) :
  create_table name dbs !! name = Some (default ∅ (dbs !! name)).
Proof.
  unfold create_table. destruct (dbs !! name) eqn:Hn; simpl; [done|].
  apply lookup_insert_eq.
Qed.

(** A construction that is connected to a database file. *)
Lemma init_File path db id self_recursive (stat : hook S stat_result)
    (listdir : hook S (list string)) fuel (s : S) (dbs : dbstore) :
  sqlite3_connect db = Ok (File id) →
  init path db self_recursive stat listdir fuel s dbs
  = match init_run id path self_recursive stat listdir fuel s dbs with
    | None => None
    | Some (s', dbs', r) =>
        Some (s', dbs',
              r ≫= λ _, Ok {| recursive := self_recursive; db_path := db_name db |})
    end.
Proof. intros Hc. unfold init. rewrite Hc. done. Qed.

(** A construction that returns a snapshot, step by step. *)
Lemma init_Ok path db id self_recursive (stat : hook S stat_result)
    (listdir : hook S (list string)) fuel s dbs s' dbs' snap :
  sqlite3_connect db = Ok (File id) →
  init path db self_recursive stat listdir fuel s dbs
    = Some (s', dbs', Ok snap) ↔
  ∃ u st dbs_r,
    stat s path = (u, Ok st)
    ∧ add_entry_to_db id path st (create_table id dbs) = (dbs_r, Ok ())
    ∧ walk (lift_hook stat) (lift_hook listdir) self_recursive
           (consume_entry id) fuel path (u, dbs_r) = Some ((s', dbs'), GenDone)
    ∧ snap = {| recursive := self_recursive; db_path := db_name db |}.
Proof.
  intros Hc. rewrite (init_File _ _ _ _ _ _ _ _ _ Hc). unfold init_run. split.
  - destruct (stat s path) as [u [st|e]]; [|done].
    destruct (add_entry_to_db id path st (create_table id dbs))
      as [dbs_r [[]|e]] eqn:Hadd; [|done].
    destruct (walk _ _ _ _ _ _ _) as [[[s2 dbs3] [|e|e]]|] eqn:Hwalk; try done.
    intros [= <- <- <-]. by exists u, st, dbs_r.
  - intros (u & st & dbs_r & -> & -> & -> & ->). done.
Qed.

(** Two snapshots that read the same rows have an empty diff. *)
Lemma sub_same_table current previous (dbs : dbstore) tbl :
  select_table current dbs = Ok tbl →
  select_table previous dbs = Ok tbl →
  ∃ d, DirectorySnapshot_sub current previous dbs = Ok d
    ∧ DirectorySnapshotDiff.added d = ∅
    ∧ DirectorySnapshotDiff.removed d = ∅
    ∧ DirectorySnapshotDiff.modified d = ∅.
Proof.
  intros Hc Hp.
  destruct (sub_tables current previous dbs tbl tbl Hc Hp) as (d & Hd & Ha & Hr & Hm).
  exists d. split; [done|]. split; [set_solver|]. split; [set_solver|].
  apply set_eq. intros p. rewrite Hm. unfold row_changed. set_solver.
Qed.

(** The states of two constructions, the first over the file [a] and the
    second over the file [b]: both files hold the table, and the two
    tables are equal unless [a] and [b] are one file. *)
Definition same_rows (a b : string) (t1 t2 : S * dbstore) : Prop :=
  ∃ tbl1 tbl2, t1.2 !! a = Some tbl1 ∧ t2.2 !! b = Some tbl2
               ∧ (a ≠ b → tbl1 = tbl2).

Lemma lift_hook_same_rows {A} (h : hook S A) (f : string → result A) a b t1 t2 p :
  (∀ s q, (h s q).2 = f q) →
  same_rows a b t1 t2 →
  same_rows a b (lift_hook h t1 p).1 (lift_hook h t2 p).1
  ∧ (lift_hook h t1 p).2 = (lift_hook h t2 p).2.
Proof.
  intros Hf HR. destruct t1 as [s1 d1], t2 as [s2 d2]. unfold lift_hook.
  pose proof (Hf s1 p) as H1. pose proof (Hf s2 p) as H2.
  destruct (h s1 p) as [u1 r1], (h s2 p) as [u2 r2]. simpl in *.
  split; [done|congruence].
Qed.

Lemma add_entry_to_db_same_rows a b path st (s1 s2 u1 u2 : S) (d1 d2 : dbstore) :
  same_rows a b (s1, d1) (s2, d2) →
  same_rows a b (u1, (add_entry_to_db a path st d1).1)
                (u2, (add_entry_to_db b path st d2).1)
  ∧ (add_entry_to_db a path st d1).2 = (add_entry_to_db b path st d2).2.
Proof.
  intros (tbl1 & tbl2 & H1 & H2 & Heq). simpl in *.
  unfold add_entry_to_db. rewrite H1, H2.
  destruct (S_ISDIR (st_mode st)) as [is_dir|e]; simpl.
  2:{ split; [|done]. by exists tbl1, tbl2. }
  destruct (_ && _); simpl.
  - split; [|done]. eexists _, _.
    split; [apply lookup_insert_eq|]. split; [apply lookup_insert_eq|].
    intros Hne. by rewrite (Heq Hne).
  - split; [|done]. by exists tbl1, tbl2.
Qed.

Lemma consume_entry_same_rows a b entry t1 t2 :
  same_rows a b t1 t2 →
  same_rows a b (consume_entry a entry t1).1 (consume_entry b entry t2).1
  ∧ (consume_entry a entry t1).2 = (consume_entry b entry t2).2.
Proof.
  destruct t1 as [s1 d1], t2 as [s2 d2]. intros HR.
  destruct (add_entry_to_db_same_rows a b entry.1 entry.2 s1 s2 s1 s2 d1 d2 HR)
    as [HR' Heq].
  unfold consume_entry.
  destruct (add_entry_to_db a entry.1 entry.2 d1) as [d1' r1],
           (add_entry_to_db b entry.1 entry.2 d2) as [d2' r2].
  done.
Qed.

End back_to_back.

(** ** What a construction does to the rows of its file *)

Section construction_rows.
Context `{Platform} {S : Type}.
Import DirectorySnapshot.

Lemma add_entry_to_db_grows name path st (dbs : dbstore) tbl :
  dbs !! name = Some tbl →
  ∃ tbl', (add_entry_to_db name path st dbs).1 !! name = Some tbl'
          ∧ dom tbl ⊆ dom tbl'.
Proof.
  intros Hn. unfold add_entry_to_db. rewrite Hn.
  destruct (S_ISDIR (st_mode st)); [|by exists tbl].
  destruct (_ && _); simpl.
  - eexists. split; [apply lookup_insert_eq|]. rewrite dom_insert_L. set_solver.
  - by exists tbl.
Qed.

(** Rows are replaced, never deleted: the table of the file grows. *)
Lemma init_run_grows path name self_recursive (stat : hook S stat_result)
    (listdir : hook S (list string)) fuel (s : S) (dbs : dbstore) s' dbs' r tbl :
  dbs !! name = Some tbl →
  init_run name path self_recursive stat listdir fuel s dbs = Some (s', dbs', r) →
  ∃ tbl', dbs' !! name = Some tbl' ∧ dom tbl ⊆ dom tbl'.
Proof.
  intros Hn. unfold init_run.
  assert (create_table name dbs = dbs) as ->.
  { unfold create_table. by rewrite Hn. }
  destruct (stat s path) as [s1 [st|e]].
  2:{ intros [= <- <- <-]. by exists tbl. }
  destruct (add_entry_to_db_grows name path st dbs tbl Hn) as (tbl1 & H1 & Hsub1).
  destruct (add_entry_to_db name path st dbs) as [dbs2 [[]|e]]; simpl in H1.
  2:{ intros [= <- <- <-]. by exists tbl1. }
  destruct (walk _ _ _ _ _ _ _) as [[[s2 dbs3] fin]|] eqn:Hwalk; [|done].
  assert (∃ tbl', dbs3 !! name = Some tbl' ∧ dom tbl ⊆ dom tbl') as Hfin.
  { eapply (walk_inv (lift_hook stat) (lift_hook listdir) self_recursive
              (consume_entry name)
              (λ t, ∃ tbl', t.2 !! name = Some tbl' ∧ dom tbl ⊆ dom tbl')
              (λ _ _ _, True)) in Hwalk; [done| | | |by exists tbl1].
    - intros [u d] p Hu. split; [|done]. by rewrite lift_hook_dbs.
    - intros [u d] p Hu. by rewrite lift_hook_dbs.
    - intros p st' [u d] (tbl' & Hd & Hsub) _. simpl in *.
      destruct (add_entry_to_db_grows name p st' d tbl' Hd) as (tbl2 & H2 & Hsub2).
      unfold consume_entry. simpl.
      destruct (add_entry_to_db name p st' d) as [d' r']. simpl in *.
      exists tbl2. split; [done|]. set_solver. }
  destruct fin; by intros [= <- <- <-].
Qed.

End construction_rows.

(** ** More on the diff *)

Section diff_more.
Context `{Platform}.
Import DirectorySnapshot.

(** X4. Two snapshot objects with the same [db_path] read the same rows:
    whenever their diff exists, [added], [removed] and [modified] are
    empty, whatever was written to the file between the two
    constructions. *)
Theorem same_file_diff_empty (current previous : DirectorySnapshot.t) (dbs : dbstore) d :
  db_path current = db_path previous →
  DirectorySnapshot_sub current previous dbs = Ok d →
  DirectorySnapshotDiff.added d = ∅
  ∧ DirectorySnapshotDiff.removed d = ∅
  ∧ DirectorySnapshotDiff.modified d = ∅.
Proof.
  intros Hsame Hd.
  destruct (sub_Ok_tables _ _ _ _ Hd) as (tc & tp & Hc & Hp).
  assert (select_table current dbs = select_table previous dbs) as Hsel.
  { unfold select_table. by rewrite Hsame. }
  rewrite Hsel, Hp in Hc. injection Hc as <-.
  destruct (sub_same_table current previous dbs tp) as (d' & Hd' & Hempty);
    [by rewrite Hsel|done|].
  rewrite Hd in Hd'. by injection Hd' as <-.
Qed.

(** X5. A diff leads from the previous paths to the current ones: taking
    [removed] out of the paths of [previous] and putting [added] in
    gives the paths of [current], and every modified path is a path of
    both snapshots. *)
Theorem diff_patches_paths (current previous : DirectorySnapshot.t) (dbs : dbstore) d :
  DirectorySnapshot_sub current previous dbs = Ok d →
  ∃ pp cp, paths previous dbs = Ok pp ∧ paths current dbs = Ok cp
    ∧ (pp ∖ DirectorySnapshotDiff.removed d) ∪ DirectorySnapshotDiff.added d = cp
    ∧ DirectorySnapshotDiff.modified d ⊆ pp ∩ cp.
Proof.
  intros Hd.
  destruct (sub_Ok_tables _ _ _ _ Hd) as (tc & tp & Hc & Hp).
  destruct (sub_tables current previous dbs tc tp Hc Hp) as (d' & Hd' & Ha & Hr & Hm).
  rewrite Hd in Hd'. injection Hd' as <-.
  exists (dom tp), (dom tc). unfold paths. rewrite Hc, Hp. simpl.
  split; [done|]. split; [done|]. rewrite Ha, Hr. split.
  - apply set_eq. intros p. rewrite elem_of_union, !elem_of_difference.
    destruct (decide (p ∈ dom tp)), (decide (p ∈ dom tc)); naive_solver.
  - intros p Hp'. apply Hm in Hp'. set_solver.
Qed.
End diff_more.

(** ** What a snapshot holds *)

Section construction_contents.
Context `{Platform} {S : Type}.
Import DirectorySnapshot.

(** [add_entry_to_db] leaves the table as it was, or puts in the row of
    the stat result. *)
Lemma add_entry_to_db_row name path st (dbs : dbstore) tbl :
  dbs !! name = Some tbl →
  (add_entry_to_db name path st dbs).1 !! name = Some tbl
  ∨ ∃ rowid is_dir, S_ISDIR (st_mode st) = Ok is_dir
      ∧ (add_entry_to_db name path st dbs).1 !! name
        = Some (<[path := stat_row rowid is_dir st]> tbl).
Proof.
  intros Hn. unfold add_entry_to_db. rewrite Hn.
  destruct (S_ISDIR (st_mode st)) as [is_dir|e]; [|by left].
  destruct (_ && _); simpl; [right|by left].
  eexists _, _. split; [done|]. apply lookup_insert_eq.
Qed.

(** X6. When listing the root fails, the errno decides: with [ENOENT],
    [ENOTDIR] or [EINVAL] the construction returns a snapshot; any other
    exception, a [PermissionError] included, leaves the constructor.  In
    both cases the row of the root was committed before, to the database
    of the connection. *)
Theorem init_listdir_failure path db conn id self_recursive (stat : hook S stat_result)
    (listdir : hook S (list string)) fuel (s u v : S)
    (dbs conn_dbs dbs_r : dbstore) st e :
  sqlite3_connect db = Ok conn →
  connection_store conn dbs = (id, conn_dbs) →
  stat s path = (u, Ok st) →
  add_entry_to_db id path st (create_table id conn_dbs) = (dbs_r, Ok ()) →
  listdir u path = (v, Raise e) →
  init path db self_recursive stat listdir (Datatypes.S fuel) s dbs
  = Some (v, connection_done conn dbs dbs_r,
          if bool_decide (e ∈ [OSError ENOENT; OSError ENOTDIR; OSError EINVAL])
          then Ok {| recursive := self_recursive; db_path := db_name db |}
          else Raise e).
Proof.
  intros Hconn Hstore Hstat Hadd Hlist. unfold init, init_run.
  rewrite Hconn, Hstore, Hstat, Hadd. simpl. unfold lift_hook at 2. rewrite Hlist.
  by case_bool_decide.
Qed.

(** X7. A snapshot built over a database file that held no table holds
    nothing but stat results: when the stat hook answers [f p] for every
    path [p], each path of the snapshot is one whose stat succeeded and
    whose mode [S_ISDIR] accepted, and [inode], [size] and [isdir] return
    the fields of that stat result; [mtime] returns its [st_mtime], or
    [None] where that is a NaN, which the database keeps as NULL. *)
Theorem snapshot_holds_stat_results path db id self_recursive
    (stat : hook S stat_result) (listdir : hook S (list string))
    (f : string → result stat_result) fuel (s : S) (dbs : dbstore) s' dbs' snap pp p :
  (∀ s p, (stat s p).2 = f p) →
  sqlite3_connect db = Ok (File id) →
  dbs !! id = None →
  init path db self_recursive stat listdir fuel s dbs
    = Some (s', dbs', Ok snap) →
  paths snap dbs' = Ok pp →
  p ∈ pp →
  ∃ st is_dir, f p = Ok st
    ∧ S_ISDIR (st_mode st) = Ok is_dir
    ∧ inode snap dbs' p = Ok (Some (st_ino st), Some (st_dev st))
    ∧ mtime snap dbs' p
      = Ok (if is_nan (st_mtime st) then None else Some (st_mtime st))
    ∧ size snap dbs' p = Ok (Some (st_size st))
    ∧ isdir snap dbs' p = Ok is_dir.
Proof.
  intros Hf Hconn Hfresh Hinit.
  apply (init_Ok _ _ id) in Hinit as (u & st0 & dbs_r & Hstat & Hadd & Hwalk & ->);
    [|done].
  pose (P := λ t : S * dbstore,
          ∃ tbl, t.2 !! id = Some tbl
                 ∧ ∀ q r, tbl !! q = Some r →
                     ∃ st rowid is_dir, f q = Ok st
                       ∧ S_ISDIR (st_mode st) = Ok is_dir
                       ∧ r = stat_row rowid is_dir st).
  assert (P (u, dbs_r)) as HP0.
  { pose proof (Hf s path) as Hroot. rewrite Hstat in Hroot. simpl in Hroot.
    assert (create_table id dbs !! id = Some ∅) as Hc.
    { by rewrite create_table_lookup_eq, Hfresh. }
    destruct (add_entry_to_db_row id path st0 _ ∅ Hc) as [Hr|(rowid & b & Hb & Hr)];
      rewrite Hadd in Hr; simpl in Hr; eexists; (split; [exact Hr|]).
    - intros q r. by rewrite lookup_empty.
    - intros q r. rewrite lookup_insert. case_decide; [|by rewrite lookup_empty].
      intros [= <-]. subst q. eauto 6. }
  assert (P (s', dbs')) as (tbl & Htbl & Hrows).
  { eapply (walk_inv (lift_hook stat) (lift_hook listdir) self_recursive
              (consume_entry id) P (λ q st _, f q = Ok st)) in Hwalk; [done| | | |done].
    - intros [v d] q Hv. split.
      + by rewrite (surjective_pairing (lift_hook stat (v, d) q).1), lift_hook_dbs.
      + intros st. unfold lift_hook. pose proof (Hf v q) as Hq.
        destruct (stat v q) as [v' rq]. simpl in *. congruence.
    - intros [v d] q Hv.
      by rewrite (surjective_pairing (lift_hook listdir (v, d) q).1), lift_hook_dbs.
    - intros q st [v d] (tbl & Hd & Hrows) Hq. simpl in *.
      unfold consume_entry. simpl.
      destruct (add_entry_to_db_row id q st d tbl Hd) as [Hr|(rowid & b & Hb & Hr)];
        destruct (add_entry_to_db id q st d) as [d' r']; simpl in *;
        eexists; (split; [exact Hr|]); [done|].
      intros q' r. rewrite lookup_insert. case_decide; [|by apply Hrows].
      intros [= <-]. subst q'. eauto 6. }
  assert (select_table {| recursive := self_recursive; db_path := db_name db |} dbs'
          = Ok tbl) as Hsel.
  { apply select_table_file. exists id. split; [|done].
    destruct db as [name|b]; [done|]. by unfold sqlite3_connect in Hconn. }
  unfold paths, inode, mtime, size, isdir. rewrite Hsel. simpl.
  intros [= <-] [r Hr]%elem_of_dom.
  destruct (Hrows p r Hr) as (st & rowid & is_dir & Hst & Hdir & ->).
  exists st, is_dir. rewrite Hr. simpl.
  split; [done|]. split; [done|]. split; [done|]. split; [done|]. split; [done|].
  by destruct is_dir.
Qed.
End construction_contents.

(*EMITTER-PROPERTIES*)

Section diff_examples.
Import Example.

Lemma diff_inverse_witness :
  ∃ dab dba, DirectorySnapshot_sub snap_new snap_old dbs_ab = Ok dab
    ∧ DirectorySnapshot_sub snap_old snap_new dbs_ab = Ok dba
    ∧ DirectorySnapshotDiff.added dab = DirectorySnapshotDiff.removed dba
    ∧ DirectorySnapshotDiff.removed dab = DirectorySnapshotDiff.added dba
    ∧ DirectorySnapshotDiff.modified dab = DirectorySnapshotDiff.modified dba.
Proof.
  destruct (diff_inverse snap_new snap_old dbs_ab
              {| DirectorySnapshotDiff.previous_dirsnap := snap_old;
                 DirectorySnapshotDiff.current_dirsnap := snap_new;
                 DirectorySnapshotDiff.added := {[ "/w/b" ]};
                 DirectorySnapshotDiff.removed := ∅;
                 DirectorySnapshotDiff.modified := {[ "/w"; "/w/a" ]} |})
    as (dba & Hdba); [reflexivity|].
  eexists _, dba. split; [reflexivity|]. exact Hdba.
Defined.

Lemma diff_sets_witness :
  ∃ d, DirectorySnapshot_sub snap_new snap_old dbs_ab = Ok d
    ∧ DirectorySnapshotDiff.added d = {[ "/w/b" ]}
    ∧ DirectorySnapshotDiff.removed d = ∅.
Proof.
  destruct (diff_sets snap_old snap_new dbs_ab
              {[ "/w"; "/w/a" ]} {[ "/w"; "/w/a"; "/w/b" ]})
    as (d & Hd & Ha & Hr & _); [reflexivity | reflexivity |].
  exists d. split; [exact Hd|]. split.
  - rewrite Ha. reflexivity.
  - rewrite Hr. reflexivity.
Defined.
End diff_examples.

Section emitter_examples.
Import Example KqueueEmitter.

Lemma register_kevent_open_failure_witness :
  _register_kevent "/w/tmp" false (emitter_on world_failing)
  = (emitter_on world_failing, Ok ())
  ∧ _register_kevent "/w/many" false (emitter_on world_failing)
    = (emitter_on world_failing, Raise (OSError EMFILE)).
Proof.
  split.
  - exact (register_kevent_open_failure "/w/tmp" false
             (emitter_on world_failing).1 (emitter_on world_failing).2
             world_failing ENOENT eq_refl eq_refl).
  - exact (register_kevent_open_failure "/w/many" false
             (emitter_on world_failing).1 (emitter_on world_failing).2
             world_failing EMFILE eq_refl eq_refl).
Defined.



(** C5 at a source path that the reference snapshot does not hold:
    [inode] returns [(None, None)], no event is yielded, and the lookup of
    the destination is attempted and raises [TypeError]. *)
Lemma rename_of_unknown_source :
  KeventDescriptor.path <$> KeventDescriptorSet.get_for_fd (_descriptors emitter_b.1) 3
  = Ok "/w/b"
  ∧ DirectorySnapshot.inode snap_old dbs_ab "/w/b" = Ok (None, None)
  ∧ _gen_renamed_events emitter_b.1 "/w/b" false snap_old snap_new dbs_ab
    = ([], Some TypeError)
  ∧ (let '(s, r) := queue_kqueue_events [kev 3 KQ_NOTE_RENAME]
                      snap_old snap_new dbs_ab emitter_b in
     r = Raise TypeError ∧ event_queue s.1 = []).
Proof. vm_compute. repeat split. Qed.

Lemma kevents_is_alias_witness :
  let ds := set_a.1 in
  let σ := set_a.2 in
  let l := [kev 3 WATCHDOG_KQ_FFLAGS] in
  let cleared := (KeventDescriptorSet.clear ds σ).1 in
  let added := (KeventDescriptorSet.add ds "/w/b" false σ).1 in
  let removed := (KeventDescriptorSet.remove ds "/w/a" σ).1 in
  heap σ !! KeventDescriptorSet.kevents ds = Some l
  ∧ (heap cleared.2 !! KeventDescriptorSet.kevents ds = Some l
     ∧ KeventDescriptorSet.kevents cleared.1 ≠ KeventDescriptorSet.kevents ds)
  ∧ (KeventDescriptorSet.kevents added.1 = KeventDescriptorSet.kevents ds
     ∧ ∃ d, KeventDescriptorSet._descriptor_for_path added.1 !! "/w/b" = Some d
            ∧ heap added.2 !! KeventDescriptorSet.kevents ds
              = Some (l ++ [KeventDescriptor.kevent d])%list)
  ∧ (KeventDescriptorSet.kevents removed.1 = KeventDescriptorSet.kevents ds
     ∧ ∃ d l', KeventDescriptorSet._descriptor_for_path ds !! "/w/a" = Some d
               ∧ remove_first (KeventDescriptor.kevent d) l = Some l'
               ∧ heap removed.2 !! KeventDescriptorSet.kevents ds = Some l').
Proof.
  intros ds σ l cleared added removed.
  destruct (kevents_is_alias ds σ l eq_refl) as (_ & Hclear & Hadd & Hremove).
  split; [reflexivity|]. split; [|split].
  - destruct (Hclear cleared.1 cleared.2 (KeventDescriptorSet.clear ds σ).2 eq_refl)
      as [Hkeep Hnew].
    split; [exact Hkeep | exact (Hnew eq_refl)].
  - exact (Hadd "/w/b" false added.1 added.2 eq_refl eq_refl).
  - exact (Hremove "/w/a" removed.1 removed.2 eq_refl eq_refl).
Defined.

(** C10 fails as stated: the list obtained from [kevents] of a new set
    is empty, and after [add] that same list holds the kevent of the
    descriptor of [/w/a]. *)
Lemma kevents_changed_by_add :
  let '(ds, σ) := KeventDescriptorSet.new {| world := world_a; heap := ∅ |} in
  let l := KeventDescriptorSet.kevents ds in
  let '((ds', σ'), r) := KeventDescriptorSet.add ds "/w/a" false σ in
  r = Ok () ∧ heap σ !! l = Some []
  ∧ heap σ' !! l = Some [kev 3 WATCHDOG_KQ_FFLAGS]
  ∧ heap σ' !! l ≠ heap σ !! l.
Proof. vm_compute. repeat split. discriminate. Qed.
End emitter_examples.

Section snapshot_examples.
Import Example DirectorySnapshot.


(** Two names of one file: [./old.db] opens the file of [old.db], and a
    snapshot built under the one name rewrites what the snapshot under
    the other name reads. *)
Lemma two_names_one_file :
  sqlite3_connect (DbStr "./old.db") = sqlite3_connect (DbStr "old.db")
  ∧ match snapshot_of world_ab "./old.db" dbs_ab with
    | Some (_, dbs', Ok snap) =>
        db_path snap = "./old.db"
        ∧ paths snap_old dbs_ab = Ok {[ "/w"; "/w/a" ]}
        ∧ paths snap_old dbs' = Ok {[ "/w"; "/w/a"; "/w/b" ]}
        ∧ paths snap dbs' = paths snap_old dbs'
    | _ => False
    end.
Proof. vm_compute. repeat split. Qed.

(** A private database: the construction over [:memory:] returns a
    snapshot and leaves the database files as they were, and every query
    of that snapshot raises; under [/nodir] no database can be opened. *)
Lemma private_database_is_lost :
  match snapshot_of world_ab ":memory:" dbs_ab with
  | Some (_, dbs', Ok snap) =>
      dbs' = dbs_ab
      ∧ paths snap dbs' = Raise OperationalError
      ∧ mtime snap dbs' "/w" = Raise OperationalError
  | _ => False
  end
  ∧ snapshot_of world_ab "/nodir/x.db" dbs_ab
    = Some (world_ab, dbs_ab, Raise OperationalError).
Proof. vm_compute. repeat split. Qed.

(** Two snapshots over one file: a snapshot of [/w] is built over [snap.db]; after
    [/w/b] was created and [/w/a] written, its successor is built over the
    same file, and the queries of the first snapshot answer with the rows
    of the second. *)
Lemma successor_rewrites_snapshot :
  match snapshot_of world_a "snap.db" ∅ with
  | Some (_, dbs1, Ok s1) =>
      match snapshot_of world_ab "snap.db" dbs1 with
      | Some (_, dbs2, Ok s2) =>
          paths s1 dbs1 = Ok {[ "/w"; "/w/a" ]}
          ∧ paths s1 dbs2 = Ok {[ "/w"; "/w/a"; "/w/b" ]}
          ∧ mtime s1 dbs1 "/w/a" = Ok (Some 100%Z)
          ∧ mtime s1 dbs2 "/w/a" = Ok (Some 101%Z)
          ∧ size s1 dbs1 "/w/a" = Ok (Some 10%Z)
          ∧ size s1 dbs2 "/w/a" = Ok (Some 15%Z)
          ∧ paths s1 dbs2 ≠ paths s1 dbs1
      | _ => False
      end
  | _ => False
  end.
Proof. vm_compute. repeat split. discriminate. Qed.

End snapshot_examples.

Section more_snapshot_examples.
Import Example DirectorySnapshot.


Lemma same_file_diff_empty_witness :
  match DirectorySnapshot_sub
          {| recursive := false; db_path := "new.db" |} snap_new dbs_ab with
  | Ok d => DirectorySnapshotDiff.added d = ∅
            ∧ DirectorySnapshotDiff.removed d = ∅
            ∧ DirectorySnapshotDiff.modified d = ∅
  | Raise _ => False
  end.
Proof.
  destruct (DirectorySnapshot_sub {| recursive := false; db_path := "new.db" |}
              snap_new dbs_ab) as [d|e] eqn:Hd.
  - exact (same_file_diff_empty {| recursive := false; db_path := "new.db" |}
             snap_new dbs_ab d eq_refl Hd).
  - vm_compute in Hd. discriminate.
Defined.

Lemma diff_patches_paths_witness :
  match DirectorySnapshot_sub snap_new snap_old dbs_ab with
  | Ok d =>
      ∃ pp cp, paths snap_old dbs_ab = Ok pp ∧ paths snap_new dbs_ab = Ok cp
        ∧ (pp ∖ DirectorySnapshotDiff.removed d) ∪ DirectorySnapshotDiff.added d = cp
        ∧ DirectorySnapshotDiff.modified d ⊆ pp ∩ cp
  | Raise _ => False
  end.
Proof.
  destruct (DirectorySnapshot_sub snap_new snap_old dbs_ab) as [d|e] eqn:Hd.
  - exact (diff_patches_paths _ _ _ d Hd).
  - vm_compute in Hd. discriminate.
Defined.
End more_snapshot_examples.

Section contents_examples.
Import Example DirectorySnapshot.

Lemma init_listdir_failure_witness :
  init "/w/a" (DbStr "f.db") true toy_stat toy_listdir 1 world_a ∅
  = Some (world_a, {[ "f.db" := {[ "/w/a" := file_row 1 (file_stat 3 100 10) ]} ]},
          Ok {| recursive := true; db_path := "f.db" |}).
Proof.
  exact (init_listdir_failure "/w/a" (DbStr "f.db") (File "f.db") "f.db" true
           toy_stat toy_listdir 0 world_a world_a world_a ∅ ∅
           {[ "f.db" := {[ "/w/a" := file_row 1 (file_stat 3 100 10) ]} ]}
           (file_stat 3 100 10) (OSError ENOTDIR)
           eq_refl eq_refl eq_refl eq_refl eq_refl).
Defined.

Lemma snapshot_holds_stat_results_witness :
  match init "/w" (DbStr "s.db") true (fixed_stat world_ab) (fixed_listdir world_ab)
             2 () ∅ with
  | Some (s', dbs', Ok snap) =>
      ∃ st is_dir, os_stat world_ab "/w/b" = Ok st
        ∧ S_ISDIR (st_mode st) = Ok is_dir
        ∧ inode snap dbs' "/w/b" = Ok (Some (st_ino st), Some (st_dev st))
        ∧ mtime snap dbs' "/w/b"
          = Ok (if is_nan (st_mtime st) then None else Some (st_mtime st))
        ∧ size snap dbs' "/w/b" = Ok (Some (st_size st))
        ∧ isdir snap dbs' "/w/b" = Ok is_dir
  | _ => False
  end.
Proof.
  destruct (init "/w" (DbStr "s.db") true (fixed_stat world_ab)
                 (fixed_listdir world_ab) 2 () ∅)
    as [[[s' dbs'] [snap|e]]|] eqn:Hinit.
  - assert (sqlite3_connect (DbStr "s.db") = Ok (File "s.db")) as Hconn
      by (vm_compute; reflexivity).
    apply (snapshot_holds_stat_results "/w" (DbStr "s.db") "s.db" true
             (fixed_stat world_ab) (fixed_listdir world_ab)
             (@os_stat _ toy world_ab) 2 () ∅ s' dbs' snap
             {[ "/w"; "/w/a"; "/w/b" ]} "/w/b" (λ _ _, eq_refl) Hconn
             (lookup_empty _) Hinit).
    + vm_compute in Hinit. injection Hinit as <- <- <-. reflexivity.
    + set_solver.
  - vm_compute in Hinit. discriminate.
  - vm_compute in Hinit. discriminate.
Defined.
End contents_examples.
